(** * PANDA (netZooPy/panda/panda.py): a shallow embedding and its properties

    The development follows the layout of [panda.py]:

    - [Float]: the values held by a NumPy [float64] cell, with rounding
      abstracted away: a real number, an infinity or NaN.  The operations
      follow IEEE 754 on the special values ([0/0 = NaN], [x/0 = +-inf],
      every comparison with NaN is false).
    - [NumPy]: dense two-dimensional arrays and the NumPy / SciPy calls
      the program makes ([dot], [mean], [std], [zscore], [nanstd], ...).
    - [Loop]: [panda_loop] with its local functions [t_function] and
      [update_diagonal].
    - [Normalizer]: [_normalize_network].
    - [Exporter]: the edge list written at the end of [panda_loop].
    - [Aligner]: [processData].
    - [Pipeline]: [__init__].
    - [Reference]: real-valued arrays and the notions the properties are
      stated with.

    The properties follow, component by component.                        *)

From Stdlib Require Import Reals Lra Lia.
From stdpp Require Import gmap strings list sorting.

Set Default Proof Using "Type".

(* ===================================================================== *)
(** * Floating-point values without rounding                              *)
(* ===================================================================== *)

Module Float.

(** A [float64] cell: NaN, [+inf] ([Inf false]), [-inf] ([Inf true]), or a
    finite value.  Finite values are exact reals: rounding, overflow and
    the sign of zero are outside the model (a zero divisor is taken to be
    [+0]). *)
Inductive fnum : Type :=
  | NaN
  | Inf (neg : bool)
  | Fin (r : R).

Definition Reqb (a b : R) : bool := if Req_dec_T a b then true else false.
Definition Rltb (a b : R) : bool := if Rlt_dec a b then true else false.

Definition isnan (x : fnum) : bool :=
  match x with NaN => true | _ => false end.

Definition fneg (x : fnum) : fnum :=
  match x with
  | NaN => NaN
  | Inf s => Inf (negb s)
  | Fin r => Fin (- r)
  end.

Definition fadd (x y : fnum) : fnum :=
  match x, y with
  | NaN, _ | _, NaN => NaN
  | Inf s, Inf t => if Bool.eqb s t then Inf s else NaN
  | Inf s, Fin _ | Fin _, Inf s => Inf s
  | Fin a, Fin b => Fin (a + b)
  end.

Definition fsub (x y : fnum) : fnum := fadd x (fneg y).

Definition fmul (x y : fnum) : fnum :=
  match x, y with
  | NaN, _ | _, NaN => NaN
  | Inf s, Inf t => Inf (xorb s t)
  | Inf s, Fin r | Fin r, Inf s =>
      if Reqb r 0 then NaN else Inf (xorb s (Rltb r 0))
  | Fin a, Fin b => Fin (a * b)
  end.

Definition fdiv (x y : fnum) : fnum :=
  match x, y with
  | NaN, _ | _, NaN => NaN
  | Inf _, Inf _ => NaN
  | Inf s, Fin r => Inf (xorb s (Rltb r 0))
  | Fin _, Inf _ => Fin 0
  | Fin a, Fin b =>
      if Reqb b 0
      then (if Reqb a 0 then NaN else Inf (Rltb a 0))
      else Fin (a / b)
  end.

Definition fsqrt (x : fnum) : fnum :=
  match x with
  | NaN => NaN
  | Inf s => if s then NaN else Inf false
  | Fin r => if Rltb r 0 then NaN else Fin (sqrt r)
  end.

Definition fabs (x : fnum) : fnum :=
  match x with
  | NaN => NaN
  | Inf _ => Inf false
  | Fin r => Fin (Rabs r)
  end.

(** [math.exp]. *)
Definition fexp (x : fnum) : fnum :=
  match x with
  | NaN => NaN
  | Inf s => if s then Fin 0 else Inf false
  | Fin r => Fin (exp r)
  end.

(** [x > y]; false as soon as one side is NaN. *)
Definition fgt (x y : fnum) : bool :=
  match x, y with
  | NaN, _ | _, NaN => false
  | Inf s, Inf t => negb s && t
  | Inf s, Fin _ => negb s
  | Fin _, Inf t => t
  | Fin a, Fin b => Rltb b a
  end.

(** [x <= y]; false as soon as one side is NaN. *)
Definition fle (x y : fnum) : bool :=
  match x, y with
  | NaN, _ | _, NaN => false
  | Inf s, Inf t => s || negb t
  | Inf s, Fin _ => s
  | Fin _, Inf t => negb t
  | Fin a, Fin b => negb (Rltb b a)
  end.

(** [np.minimum] and [np.maximum] (NaN propagates). *)
Definition fmin (x y : fnum) : fnum :=
  if isnan x || isnan y then NaN else if fgt x y then y else x.
Definition fmax (x y : fnum) : fnum :=
  if isnan x || isnan y then NaN else if fgt y x then y else x.

Definition of_nat (n : nat) : fnum := Fin (INR n).

Definition fsum (l : list fnum) : fnum := foldl fadd (Fin 0) l.

Declare Scope fnum_scope.
Delimit Scope fnum_scope with fl.
Bind Scope fnum_scope with fnum.
Infix "+" := fadd : fnum_scope.
Infix "-" := fsub : fnum_scope.
Infix "*" := fmul : fnum_scope.
Infix "/" := fdiv : fnum_scope.

End Float.

Import Float.

(* ===================================================================== *)
(** * Dense arrays and the NumPy / SciPy calls of the program             *)
(* ===================================================================== *)

Module NumPy.

(** A two-dimensional [ndarray] of shape [(n, m)].  The shape is part of
    the type, so that only conforming arrays can be combined: [np.dot] and
    broadcasting raise [ValueError] on the others.  Only the cells
    [(i, j)] with [i < n] and [j < m] are meaningful. *)
Record matrix (n m : nat) : Type := Mat { cell : nat -> nat -> fnum }.
Arguments Mat {n m} _.
Arguments cell {n m} _ _ _.

(** The same buffer seen under another shape of the same size pattern
    (used where the program has checked [shape[0] == shape[1]]). *)
Definition recast {n m n' m'} (x : matrix n m) : matrix n' m' := Mat (cell x).

Definition row_values {n m} (x : matrix n m) (i : nat) : list fnum :=
  map (fun j => cell x i j) (seq 0 m).
Definition col_values {n m} (x : matrix n m) (j : nat) : list fnum :=
  map (fun i => cell x i j) (seq 0 n).

(** [x.flatten()] (row-major) and [x.flatten(order='F')] (column-major). *)
Definition flatten {n m} (x : matrix n m) : list fnum :=
  flat_map (row_values x) (seq 0 n).
Definition flatten_F {n m} (x : matrix n m) : list fnum :=
  flat_map (col_values x) (seq 0 m).

Definition transpose {n m} (x : matrix n m) : matrix m n :=
  Mat (fun i j => cell x j i).

Definition map_cells {n m} (f : fnum -> fnum) (x : matrix n m) : matrix n m :=
  Mat (fun i j => f (cell x i j)).
Definition zip_cells {n m} (f : fnum -> fnum -> fnum) (x y : matrix n m)
  : matrix n m :=
  Mat (fun i j => f (cell x i j) (cell y i j)).

Definition zeros (n m : nat) : matrix n m := Mat (fun _ _ => Fin 0).
Definition identity (n : nat) : matrix n n :=
  Mat (fun i j => if i =? j then Fin 1 else Fin 0).

(** [np.dot(x, y)]. *)
Definition dot {n k m} (x : matrix n k) (y : matrix k m) : matrix n m :=
  Mat (fun i j => fsum (map (fun l => cell x i l * cell y l j)%fl (seq 0 k))).

(** [np.mean] and [np.std] (population standard deviation, [ddof=0]) of
    the values of an array or of one of its rows or columns.  The mean of
    no value at all is [0/0 = NaN]. *)
Definition mean_of (l : list fnum) : fnum := (fsum l / of_nat (length l))%fl.
Definition std_of (l : list fnum) : fnum :=
  let mu := mean_of l in
  fsqrt (mean_of (map (fun v => (v - mu) * (v - mu))%fl l)).

Definition mean {n m} (x : matrix n m) : fnum := mean_of (flatten x).
Definition std {n m} (x : matrix n m) : fnum := std_of (flatten x).

(** [np.nanstd]: the standard deviation of the values that are not NaN. *)
Definition nanstd_of (l : list fnum) : fnum :=
  std_of (filter (fun v => isnan v = false) l).

(** [scipy.stats.zscore(x, axis=0)] standardises every column,
    [zscore(x, axis=1)] every row; a constant column gives [0/0]. *)
Definition zscore0 {n m} (x : matrix n m) : matrix n m :=
  Mat (fun i j =>
    (cell x i j - mean_of (col_values x j)) / std_of (col_values x j))%fl.
Definition zscore1 {n m} (x : matrix n m) : matrix n m :=
  Mat (fun i j =>
    (cell x i j - mean_of (row_values x i)) / std_of (row_values x i))%fl.

(** [a[mask] = b[mask]]: boolean-mask assignment from an array of the same
    shape. *)
Definition assign_mask {n m} (a : matrix n m) (mask : nat -> nat -> bool)
    (b : matrix n m) : matrix n m :=
  Mat (fun i j => if mask i j then cell b i j else cell a i j).

(** [np.fill_diagonal(a, v)] with a scalar or a vector [v]. *)
Definition fill_diagonal {n} (a : matrix n n) (v : nat -> fnum) : matrix n n :=
  Mat (fun i j => if i =? j then v i else cell a i j).

End NumPy.

Import NumPy.

(* ===================================================================== *)
(** * The PANDA message-passing loop                                      *)
(* ===================================================================== *)

Module Loop.

(** [t_function(x, y)]: continuous Tanimoto similarity between the rows of
    [x] and the columns of [y]. *)
Definition t_function {n k m} (x : matrix n k) (y : matrix k m) : matrix n m :=
  let a_matrix := dot x y in
  let sy := fun j => fsum (map (fun v => v * v)%fl (col_values y j)) in
  let sx := fun i => fsum (map (fun v => v * v)%fl (row_values x i)) in
  Mat (fun i j =>
    cell a_matrix i j / fsqrt (sy j + sx i - fabs (cell a_matrix i j)))%fl.

(** [t_function(x)] ([y is None]): similarity between the rows of [x]. *)
Definition t_function_self {n k} (x : matrix n k) : matrix n n :=
  let a_matrix := dot x (transpose x) in
  let s := fun i => fsum (map (fun v => v * v)%fl (row_values x i)) in
  Mat (fun i j =>
    cell a_matrix i j / fsqrt (s j + s i - fabs (cell a_matrix i j)))%fl.

(** [update_diagonal(diagonal_matrix, num, alpha, step)]. *)
Definition update_diagonal {n} (diagonal_matrix : matrix n n)
    (num : nat) (alpha : fnum) (step : nat) : matrix n n :=
  let holed := fill_diagonal diagonal_matrix (fun _ => NaN) in
  let diagonal_std := fun i => nanstd_of (row_values holed i) in
  let diagonal_fill := fun i =>
    (diagonal_std i * of_nat num * fexp (Fin 2 * alpha * of_nat step))%fl in
  fill_diagonal holed diagonal_fill.

(** [a *= (1 - alpha); a += alpha * b]. *)
Definition blend {n m} (alpha : fnum) (a b : matrix n m) : matrix n m :=
  Mat (fun i j => cell a i j * (Fin 1 - alpha) + alpha * cell b i j)%fl.

(** The tolerance of the [while] test. *)
Definition tolerance : fnum := Fin (1 / 1000).

(** The variables of [panda_loop] that live across iterations. *)
Record state (num_tfs num_genes : nat) : Type := State {
  motif_matrix : matrix num_tfs num_genes;
  ppi_matrix : matrix num_tfs num_tfs;
  correlation_matrix : matrix num_genes num_genes;
  step : nat;
  hamming : fnum
}.
Arguments State {num_tfs num_genes} _ _ _ _ _.
Arguments motif_matrix {num_tfs num_genes} _.
Arguments ppi_matrix {num_tfs num_genes} _.
Arguments correlation_matrix {num_tfs num_genes} _.
Arguments step {num_tfs num_genes} _.
Arguments hamming {num_tfs num_genes} _.

Section Body.
Context {num_tfs num_genes : nat}.
Variable alpha : fnum.

(** [W = 0.5 * (t_function(ppi, motif) + t_function(motif, correlation))]. *)
Definition consensus (s : state num_tfs num_genes) : matrix num_tfs num_genes :=
  let R := t_function (ppi_matrix s) (motif_matrix s) in
  let A := t_function (motif_matrix s) (correlation_matrix s) in
  Mat (fun i j => Fin (1 / 2) * (cell R i j + cell A i j))%fl.

(** [np.abs(motif_matrix - W).mean()]. *)
Definition metric (s : state num_tfs num_genes) : fnum :=
  mean (zip_cells (fun a w => fabs (a - w)%fl) (motif_matrix s) (consensus s)).

(** One execution of the body of the [while] loop.  The branch
    [computing == 'gpu'] runs the same statements on CuPy arrays. *)
Definition panda_pass (s : state num_tfs num_genes) : state num_tfs num_genes :=
  let W := consensus s in
  let hamming' := metric s in
  let motif' := blend alpha (motif_matrix s) W in
  if fgt hamming' tolerance then
    let ppi := update_diagonal (t_function_self motif') num_tfs alpha (step s) in
    let ppi' := blend alpha (ppi_matrix s) ppi in
    let motif := update_diagonal (t_function_self (transpose motif'))
                   num_genes alpha (step s) in
    let correlation' := blend alpha (correlation_matrix s) motif in
    State motif' ppi' correlation' (S (step s)) hamming'
  else
    State motif' (ppi_matrix s) (correlation_matrix s) (S (step s)) hamming'.

(** [while hamming > 0.001: ...].  The source has no bound on the number
    of passes; [fuel] bounds the passes this function may run, and [None]
    says that the loop is still running when the fuel is spent. *)
Fixpoint while_loop (fuel : nat) (s : state num_tfs num_genes)
  : option (state num_tfs num_genes) :=
  if fgt (hamming s) tolerance then
    match fuel with
    | O => None
    | S fuel' => while_loop fuel' (panda_pass s)
    end
  else Some s.

(** The state on entry: [step = 0; hamming = 1]. *)
Definition entry (correlation : matrix num_genes num_genes)
    (motif : matrix num_tfs num_genes) (ppi : matrix num_tfs num_tfs)
  : state num_tfs num_genes :=
  State motif ppi correlation 0 (Fin 1).

(** [panda_loop(correlation_matrix, motif_matrix, ppi_matrix, 'cpu', alpha)],
    up to the end of the [while] loop; the returned array is the
    [motif_matrix] of the final state.  The export that follows the loop
    is [Exporter.export_panda_results]. *)
Definition panda_loop (fuel : nat) (correlation : matrix num_genes num_genes)
    (motif : matrix num_tfs num_genes) (ppi : matrix num_tfs num_tfs)
  : option (state num_tfs num_genes) :=
  while_loop fuel (entry correlation motif ppi).

(** The state after [k] executions of the body. *)
Definition after (k : nat) (s : state num_tfs num_genes) : state num_tfs num_genes :=
  Nat.iter k panda_pass s.

End Body.

End Loop.

Import Loop.

(* ===================================================================== *)
(** * Network normalization                                               *)
(* ===================================================================== *)

Module Normalizer.

Section Normalize.
Context {n m : nat}.
Variable x : matrix n m.

Definition norm_col : matrix n m := zscore0 x.

(** [norm_col.T] when [x.shape[0] == x.shape[1]], else [zscore(x, axis=1)]. *)
Definition norm_row : matrix n m :=
  if n =? m then recast (transpose norm_col) else zscore1 x.

(** [(norm_col + norm_row) / math.sqrt(2)], before any replacement. *)
Definition combined : matrix n m :=
  Mat (fun i j => (cell norm_col i j + cell norm_row i j) / Fin (sqrt 2))%fl.

(** [(x - np.mean(x)) / np.std(x)]. *)
Definition norm_total : matrix n m :=
  Mat (fun i j => (cell x i j - mean x) / std x)%fl.

Definition nan_col (i j : nat) : bool := isnan (cell norm_col i j).
Definition nan_row (i j : nat) : bool := isnan (cell norm_row i j).

(** [_normalize_network(x)]. *)
Definition _normalize_network : matrix n m :=
  let normalized_matrix := combined in
  let normalized_matrix :=
    assign_mask normalized_matrix nan_col
      (Mat (fun i j => (cell norm_row i j + cell norm_total i j) / Fin (sqrt 2))%fl) in
  let normalized_matrix :=
    assign_mask normalized_matrix nan_row
      (Mat (fun i j => (cell norm_col i j + cell norm_total i j) / Fin (sqrt 2))%fl) in
  assign_mask normalized_matrix (fun i j => nan_col i j && nan_row i j)
    (Mat (fun i j => Fin 2 * cell norm_total i j / Fin (sqrt 2))%fl).

End Normalize.

End Normalizer.

Import Normalizer.

(* ===================================================================== *)
(** * Edge-list export                                                    *)
(* ===================================================================== *)

Module Exporter.

(** One row of the data frame [export_panda_results]. *)
Record edge : Type := Edge {
  tf : string;
  gene : string;
  motif : fnum;
  force : fnum
}.

(** [np.tile(l, (reps, 1)).flatten()]: [l] repeated [reps] times. *)
Definition tile_flatten {A} (l : list A) (reps : nat) : list A :=
  concat (replicate reps l).

(** [np.repeat(l, k)]: every element of [l] repeated [k] times. *)
Definition repeat_each {A} (l : list A) (k : nat) : list A :=
  flat_map (fun a => replicate k a) l.

(** [pd.DataFrame({'tf': .., 'gene': .., 'motif': .., 'force': ..})] with
    its rows in order; the four columns must have one length. *)
Fixpoint data_frame (tfs genes : list string) (motifs forces : list fnum)
  : option (list edge) :=
  match tfs, genes, motifs, forces with
  | [], [], [], [] => Some []
  | t :: tfs, g :: genes, mo :: motifs, f :: forces =>
      option_map (cons (Edge t g mo f)) (data_frame tfs genes motifs forces)
  | _, _, _, _ => None
  end.

(** The tail of [panda_loop] when the object still has [unique_tfs]. *)
Definition export_panda_results (unique_tfs gene_names : list string)
    (motif_matrix_unnormalized motif_matrix
       : matrix (length unique_tfs) (length gene_names))
  : option (list edge) :=
  let num_tfs := length unique_tfs in
  let tfs := tile_flatten unique_tfs (length gene_names) in
  let genes := repeat_each gene_names num_tfs in
  let motif := flatten_F motif_matrix_unnormalized in
  let force := flatten_F motif_matrix in
  data_frame tfs genes motif force.

End Exporter.

Import Exporter.

(* ===================================================================== *)
(** * Data processing: from tables to aligned matrices                    *)
(* ===================================================================== *)

Module Aligner.

(** ** Python and pandas values *)

Inductive exception : Type :=
  | ValueError
  | TypeError.

(** What a call does: it raises, it is still running when the fuel given
    to the message-passing loop is spent, or it returns. *)
Inductive outcome (A : Type) : Type :=
  | Raised (e : exception)
  | Running
  | Returned (a : A).
Arguments Raised {A} _.
Arguments Running {A}.
Arguments Returned {A} _.

#[global] Instance outcome_ret : MRet outcome := fun A a => Returned a.
#[global] Instance outcome_bind : MBind outcome := fun A B k c =>
  match c with
  | Raised e => Raised e
  | Running => Running
  | Returned a => k a
  end.

(** A two-dimensional array whose shape is only known at run time. *)
Record ndarray : Type := Array {
  shape0 : nat;
  shape1 : nat;
  data : matrix shape0 shape1
}.

(** A motif or PPI table: rows of (column 0, column 1, column 2). *)
Definition triples : Type := list (string * string * fnum).
Definition column0 (t : triples) : list string := map (fun r => r.1.1) t.
Definition column1 (t : triples) : list string := map (fun r => r.1.2) t.
Definition column2 (t : triples) : list fnum := map (fun r => r.2) t.

(** An expression table: one row of [samples] values per index label. *)
Record expression_table : Type := Expression {
  index : list string;
  samples : nat;
  values : matrix (length index) samples
}.

(** [modeProcess]. *)
Inductive mode : Type :=
  | legacy
  | union
  | intersection.

(** ** Label sets *)

(** The order of Python strings: lexicographic on the characters. *)
Definition label_le (a b : string) : Prop := String.leb a b = true.
#[global] Instance label_le_dec : RelDecision label_le.
Proof. intros a b; unfold label_le; apply _. Defined.

(** [sorted(l)], [set(l)] as far as the program observes it (it only
    sorts its elements or tests membership), and [np.unique(l)]. *)
Definition sorted (l : list string) : list string := merge_sort label_le l.
Definition set_of (l : list string) : list string := remove_dups l.
Definition np_unique (l : list string) : list string := sorted (remove_dups l).
Definition set_intersection (a b : list string) : list string :=
  filter (fun x => x ∈ b) (remove_dups a).
Definition isin (l : list string) (x : string) : bool := bool_decide (x ∈ l).

(** [{x: i for i, x in enumerate(l)}]: a later duplicate overwrites. *)
Definition index_dict (l : list string) : gmap string nat :=
  foldl (fun d ix => <[ix.2 := ix.1]> d) ∅ (zip (seq 0 (length l)) l).
(** [d.get(x, 0)]. *)
Definition get0 (d : gmap string nat) (x : string) : nat := default 0 (d !! x).

(** ** Data loading *)

Definition motif_tfs_of (motif_file : option triples) : list string :=
  match motif_file with
  | Some t => sorted (set_of (column0 t))
  | None => []
  end.
Definition motif_genes_of (motif_file : option triples) : list string :=
  match motif_file with
  | Some t => sorted (set_of (column1 t))
  | None => []
  end.
Definition expression_genes_of (motif_file : option triples)
    (expression_file : option expression_table) : list string :=
  match expression_file with
  | Some e => index e
  | None => motif_genes_of motif_file
  end.
Definition ppi_tfs_of (motif_file ppi_file : option triples) : list string :=
  match ppi_file with
  | Some p => sorted (set_of (column0 p ++ column1 p))
  | None => motif_tfs_of motif_file
  end.

(** [self.gene_names] and [self.unique_tfs] as set by the branch of
    [modeProcess] (without [remove_missing]). *)
Definition gene_names_of (modeProcess : mode) (motif_file : option triples)
    (expression_file : option expression_table) : list string :=
  let motif_genes := motif_genes_of motif_file in
  let expression_genes := expression_genes_of motif_file expression_file in
  match modeProcess with
  | legacy =>
      match expression_file with
      | Some _ => expression_genes
      | None => motif_genes
      end
  | union => sorted (np_unique (motif_genes ++ expression_genes))
  | intersection =>
      match motif_file with
      | None => sorted (np_unique expression_genes)
      | Some _ =>
          sorted (np_unique (set_intersection motif_genes expression_genes))
      end
  end.

Definition unique_tfs_of (modeProcess : mode) (motif_file ppi_file : option triples)
  : list string :=
  let motif_tfs := motif_tfs_of motif_file in
  let ppi_tfs := ppi_tfs_of motif_file ppi_file in
  match modeProcess with
  | legacy =>
      match motif_file with
      | None => ppi_tfs
      | Some _ => motif_tfs
      end
  | union => sorted (np_unique (ppi_tfs ++ motif_tfs))
  | intersection =>
      match motif_file with
      | None => sorted (np_unique ppi_tfs)
      | Some _ => sorted (np_unique (set_intersection ppi_tfs motif_tfs))
      end
  end.


(** ** Network construction *)

(** The position of the last element of [l] that satisfies [f]. *)
Definition find_last {A} (f : A -> bool) (l : list A) : option nat :=
  foldl (fun acc ix => if f ix.2 then Some ix.1 else acc) None
        (zip (seq 0 (length l)) l).

(** [expression = np.zeros((num_genes, samples));
     expression[idx_geneEx, :] = expression_data.values]: row [r] receives
    the last row of the table that is sent to [r]. *)
Definition realign (gene_names : list string) (e : expression_table)
  : expression_table :=
  let gene2idx := index_dict gene_names in
  let idx_geneEx := map (get0 gene2idx) (index e) in
  Expression gene_names (samples e)
    (Mat (fun r c =>
       match find_last (fun k => k =? r) idx_geneEx with
       | Some i => cell (values e) i c
       | None => Fin 0
       end)).

(** [np.corrcoef(x)], the rows of [x] being the variables: the covariance
    [np.cov(x)] ([ddof = 1]) divided by the standard deviations and
    clipped to [[-1, 1]].  (For a single row NumPy returns a scalar, given
    here as an array of shape [(1, 1)].) *)
Definition corrcoef {k s} (x : matrix k s) : matrix k k :=
  let avg := fun i => mean_of (row_values x i) in
  let X : matrix k s := Mat (fun i l => cell x i l - avg i)%fl in
  let fact := if s <=? 1 then Fin 0 else of_nat (s - 1) in
  let c : matrix k k :=
    Mat (fun i j => cell (dot X (transpose X)) i j * (Fin 1 / fact))%fl in
  let stddev := fun i => fsqrt (cell c i i) in
  Mat (fun i j => fmin (fmax (cell c i j / stddev i / stddev j)%fl (Fin (-1))) (Fin 1)).

(** The largest finite [float64]. *)
Definition float_max : R := (2 - / 2 ^ 52) * 2 ^ 1023.

(** [np.nan_to_num]. *)
Definition nan_to_num (v : fnum) : fnum :=
  match v with
  | NaN => Fin 0
  | Inf s => if s then Fin (- float_max) else Fin float_max
  | Fin r => Fin r
  end.

(** [np.isnan(a).any()]. *)
Definition any_nan {n m} (a : matrix n m) : bool := existsb isnan (flatten a).

(** "Calculating coexpression network". *)
Definition coexpression (num_genes : nat) (expression_data : option expression_table)
  : ndarray :=
  let fix_nan := fun k (c : matrix k k) =>
    if any_nan c
    then map_cells nan_to_num (fill_diagonal c (fun _ => Fin 1))
    else c in
  match expression_data with
  | None => Array num_genes num_genes (fix_nan _ (identity num_genes))
  | Some e => Array (length (index e)) (length (index e)) (fix_nan _ (corrcoef (values e)))
  end.

(** [np.ravel_multi_index((rows, cols), (n, m))]: a coordinate outside the
    shape raises; so does an empty coordinate list, which NumPy takes
    for an array of floats. *)
Definition ravel_multi_index (rows cols : list nat) (n m : nat)
  : outcome (list nat) :=
  match rows with
  | [] => Raised TypeError
  | _ =>
      if forallb (fun i => i <? n) rows && forallb (fun j => j <? m) cols
      then Returned (zip_with (fun i j => i * m + j) rows cols)
      else Raised ValueError
  end.

(** [a.ravel()[idx] = vals]: the flat positions are written in order. *)
Definition assign_flat {n m} (a : matrix n m) (idx : list nat) (vals : list fnum)
  : matrix n m :=
  foldl (fun (a : matrix n m) kv =>
           Mat (fun i j => if i * m + j =? kv.1 then kv.2 else cell a i j))
        a (zip idx vals).

(** "Creating motif network". *)
Definition motif_network (unique_tfs gene_names : list string) (motif_data : triples)
  : outcome (matrix (length unique_tfs) (length gene_names)) :=
  let tf2idx := index_dict unique_tfs in
  let gene2idx := index_dict gene_names in
  let idx_tfs := map (get0 tf2idx) (column0 motif_data) in
  let idx_genes := map (get0 gene2idx) (column1 motif_data) in
  idx ← ravel_multi_index idx_tfs idx_genes (length unique_tfs) (length gene_names);
  mret (assign_flat (zeros _ _) idx (column2 motif_data)).

(** "Creating PPI network". *)
Definition ppi_network (unique_tfs : list string) (ppi_data : option triples)
  : outcome (matrix (length unique_tfs) (length unique_tfs)) :=
  match ppi_data with
  | None => mret (identity (length unique_tfs))
  | Some ppi_data =>
      let num_tfs := length unique_tfs in
      let tf2idx := index_dict unique_tfs in
      let idx_tf1 := map (get0 tf2idx) (column0 ppi_data) in
      let idx_tf2 := map (get0 tf2idx) (column1 ppi_data) in
      idx ← ravel_multi_index idx_tf1 idx_tf2 num_tfs num_tfs;
      let ppi_matrix := assign_flat (identity num_tfs) idx (column2 ppi_data) in
      idx' ← ravel_multi_index idx_tf2 idx_tf1 num_tfs num_tfs;
      mret (assign_flat ppi_matrix idx' (column2 ppi_data))
  end.

(** ** Results *)

(** [pd.DataFrame(a, index=.., columns=..)]: the labels must fit the
    shape. *)
Record labelled : Type := Labelled {
  row_labels : list string;
  column_labels : list string;
  frame : ndarray
}.
Definition DataFrame (a : ndarray) (index columns : list string) : outcome labelled :=
  if (shape0 a =? length index) && (shape1 a =? length columns)
  then Returned (Labelled index columns a)
  else Raised ValueError.

(** [__pearson_results_data_frame]: columns [tf], [gene], [force]. *)
Fixpoint pearson_frame (tfs genes : list string) (forces : list fnum)
  : outcome (list (string * string * fnum)) :=
  match tfs, genes, forces with
  | [], [], [] => Returned []
  | t :: tfs, g :: genes, f :: forces =>
      rest ← pearson_frame tfs genes forces; mret ((t, g, f) :: rest)
  | _, _, _ => Raised ValueError
  end.
Definition __pearson_results_data_frame (gene_names : list string)
    (panda_network : ndarray) : outcome (list (string * string * fnum)) :=
  let genes_1 := tile_flatten gene_names (length gene_names) in
  let genes_2 := repeat_each gene_names (length gene_names) in
  let flat_panda_network := flatten (transpose (data panda_network)) in
  pearson_frame genes_1 genes_2 flat_panda_network.

(** The aligned matrices handed to the normalizer and the loop. *)
Record networks : Type := Networks {
  unique_tfs : list string;
  gene_names : list string;
  correlation_matrix : ndarray;
  motif_matrix_unnormalized : matrix (length unique_tfs) (length gene_names);
  ppi_matrix : matrix (length unique_tfs) (length unique_tfs)
}.

(** What [processData] leaves in the object: either the co-expression
    network already exported ([export_panda_results] is set), or the three
    matrices. *)
Inductive processed : Type :=
  | Coexpression (panda_network : labelled)
                 (export_panda_results : list (string * string * fnum))
  | Priors (nw : networks).

(** [processData(modeProcess, motif_file, expression_file, ppi_file,
    remove_missing=False, keep_expression_matrix)] on tables already
    loaded. *)
Definition processData (modeProcess : mode) (motif_file : option triples)
    (expression_file : option expression_table) (ppi_file : option triples)
  : outcome processed :=
  let expression_genes := expression_genes_of motif_file expression_file in
  let gene_names := gene_names_of modeProcess motif_file expression_file in
  let unique_tfs := unique_tfs_of modeProcess motif_file ppi_file in
  let num_genes := length gene_names in
  let expression_data :=
    match modeProcess, expression_file with
    | legacy, _ | _, None => expression_file
    | _, Some e => if num_genes =? 0 then Some e else Some (realign gene_names e)
    end in
  let correlation_matrix := coexpression num_genes expression_data in
  match motif_file with
  | None =>
      export ← __pearson_results_data_frame gene_names correlation_matrix;
      panda_network ← DataFrame correlation_matrix expression_genes expression_genes;
      mret (Coexpression panda_network export)
  | Some motif_data =>
      motif ← motif_network unique_tfs gene_names motif_data;
      ppi ← ppi_network unique_tfs ppi_file;
      mret (Priors (Networks unique_tfs gene_names correlation_matrix motif ppi))
  end.

End Aligner.

Import Aligner.

(* ===================================================================== *)
(** * The constructor of class [Panda]                                    *)
(* ===================================================================== *)

Module Pipeline.

(** The attributes of the object that the properties below read. *)
Record panda : Type := Panda {
  panda_network : labelled;
  (** [export_panda_results] after [processData] stopped early *)
  coexpression_edges : option (list (string * string * fnum));
  (** [export_panda_results] written by [panda_loop] *)
  edges : option (list edge);
  (** the number of passes of the message-passing loop, if it was run *)
  loop_steps : option nat
}.

(** [pd.DataFrame] with its four columns of unequal length raises. *)
Definition export_frame (e : option (list edge)) : outcome (list edge) :=
  match e with
  | Some l => Returned l
  | None => Raised ValueError
  end.

(** [Panda(expression_file, motif_file, ppi_file, computing='cpu',
    precision='double', save_memory, save_tmp, remove_missing=False,
    keep_expression_matrix, modeProcess, alpha)].  [fuel] bounds the
    passes of the message-passing loop. *)
Definition __init__ (fuel : nat) (expression_file : option expression_table)
    (motif_file ppi_file : option triples) (save_memory : bool)
    (modeProcess : mode) (alpha : fnum) : outcome panda :=
  p ← processData modeProcess motif_file expression_file ppi_file;
  match p with
  | Coexpression network export =>
      (* [hasattr(self, 'export_panda_results')]: return *)
      mret (Panda network (Some export) None None)
  | Priors nw =>
      let tfs := unique_tfs nw in
      let genes := gene_names nw in
      let correlation := _normalize_network (data (correlation_matrix nw)) in
      let motif := _normalize_network (motif_matrix_unnormalized nw) in
      let ppi := _normalize_network (ppi_matrix nw) in
      (* [np.dot(motif_matrix, correlation_matrix)] needs conforming shapes *)
      if shape0 (correlation_matrix nw) =? length genes then
        match panda_loop alpha fuel
                (recast correlation : matrix (length genes) (length genes))
                motif ppi with
        | None => Running
        | Some s =>
            export ←
              (if save_memory then mret None
               else e ← export_frame
                          (export_panda_results tfs genes
                             (motif_matrix_unnormalized nw) (motif_matrix s));
                    mret (Some e));
            mret (Panda (Labelled tfs genes
                          (Array (length tfs) (length genes) (motif_matrix s)))
                        None export (Some (step s)))
        end
      else Raised ValueError
  end.

End Pipeline.

Import Pipeline.

(* ===================================================================== *)
(** * Removing entities that a prior lacks (legacy mode)                  *)
(* ===================================================================== *)

Module Missing.

(** [df[df.index.isin(labels)]] on an expression table: the rows whose
    label is kept, in their order. *)
Definition kept_positions (keep : string -> bool) (l : list string) : list nat :=
  map fst (List.filter (fun ix => keep ix.2) (zip (seq 0 (length l)) l)).

Definition select_rows (keep : string -> bool) (e : expression_table)
  : expression_table :=
  Expression (List.filter keep (index e)) (samples e)
    (Mat (fun r c => cell (values e) (nth r (kept_positions keep (index e)) 0) c)).

(** What [__remove_missing] leaves in the object. *)
Record removed : Type := Removed {
  expression_data : option expression_table;
  gene_names : list string;
  motif_data : triples;
  unique_tfs : list string;
  ppi_data : option triples
}.

(** [__remove_missing()], called with a motif table; [gene_names] is the
    attribute as the loading step left it (the sorted motif genes), and
    is only read when there is no expression table. *)
Definition __remove_missing (expression_data : option expression_table)
    (gene_names : list string) (motif_data : triples) (ppi_data : option triples)
  : removed :=
  let motif_unique_genes := column1 motif_data in
  let expression_data := option_map (select_rows (isin motif_unique_genes))
                                    expression_data in
  let gene_names :=
    match expression_data with
    | Some e => index e
    | None => gene_names
    end in
  let motif_data := List.filter (fun r => isin gene_names r.1.2) motif_data in
  let unique_tfs := sorted (set_of (column0 motif_data)) in
  let motif_unique_tfs := column0 motif_data in
  let ppi_data :=
    option_map (fun p =>
      List.filter (fun r => isin motif_unique_tfs r.1.2)
        (List.filter (fun r => isin motif_unique_tfs r.1.1) p)) ppi_data in
  Removed expression_data gene_names motif_data unique_tfs ppi_data.

(** The call as [processData] makes it in legacy mode. *)
Definition remove_missing_of (motif_data : triples)
    (expression_file : option expression_table) (ppi_file : option triples)
  : removed :=
  __remove_missing expression_file (motif_genes_of (Some motif_data))
                   motif_data ppi_file.

End Missing.

(* ===================================================================== *)
(** * Degrees of the exported network                                     *)
(* ===================================================================== *)

Module Degrees.

(** The sum pandas takes over a group: NaN values are skipped. *)
Definition nansum (l : list fnum) : fnum :=
  fsum (filter (fun v => isnan v = false) l).

(** [df.groupby(key).sum()] on a frame of (key, value) rows: one row per
    distinct key, the keys sorted. *)
Definition groupby_sum (rows : list (string * fnum)) : list (string * fnum) :=
  map (fun k => (k, nansum (map snd (List.filter (fun r => String.eqb r.1 k) rows))))
      (sorted (set_of (map fst rows))).

(** [return_panda_indegree()] and [return_panda_outdegree()] on the edge
    list [export_panda_results]. *)
Definition return_panda_indegree (export_panda_results : list edge)
  : list (string * fnum) :=
  groupby_sum (map (fun e => (gene e, force e)) export_panda_results).
Definition return_panda_outdegree (export_panda_results : list edge)
  : list (string * fnum) :=
  groupby_sum (map (fun e => (tf e, force e)) export_panda_results).

End Degrees.

(* ===================================================================== *)
(** * Plot labels                                                         *)
(* ===================================================================== *)

Module Plot.

(** [s[0:k]] and [s[k:]]. *)
Fixpoint slice_to (k : nat) (s : string) : string :=
  match k, s with
  | S k', String c s' => String c (slice_to k' s')
  | _, _ => EmptyString
  end.
Fixpoint slice_from (k : nat) (s : string) : string :=
  match k, s with
  | S k', String _ s' => slice_from k' s'
  | _, _ => s
  end.

Definition newline : string := String (Ascii.ascii_of_nat 10) EmptyString.

(** [split_label(label)] of [__create_plot]; [int(np.ceil(ll/2))] is
    [(ll + 1) / 2]. *)
Definition split_label (label : string) : string :=
  let ll := String.length label in
  if 6 <? ll
  then (slice_to ((ll + 1) / 2) label ++ newline
        ++ slice_from ((ll + 1) / 2) label)%string
  else label.

End Plot.

(* ===================================================================== *)
(** * Real-valued arrays and reference notions                            *)
(* ===================================================================== *)

Module Reference.

(** The array of shape [(n, m)] that holds the real [f i j] in cell
    [(i, j)]: an array without NaN and without infinity. *)
Definition real_matrix (n m : nat) (f : nat -> nat -> R) : matrix n m :=
  Mat (fun i j => Fin (f i j)).

(** The array [[[v]]] of shape [(1, 1)]. *)
Definition scalar (v : R) : matrix 1 1 := real_matrix 1 1 (fun _ _ => v).

(** The array whose rows are the given lists (cells outside are 0). *)
Definition of_rows (n m : nat) (rows : list (list R)) : matrix n m :=
  real_matrix n m (fun i j => nth j (nth i rows []) 0%R).

(** Sums of reals, in the order [fsum] adds them. *)
Definition rsum (l : list R) : R := foldl Rplus 0%R l.
(** The dot product of rows [i] and [j], and the squared norm of row [i],
    of a real array with [k] columns. *)
Definition row_dot (f : nat -> nat -> R) (k i j : nat) : R :=
  rsum (map (fun l => f i l * f j l)%R (seq 0 k)).
Definition row_norm2 (f : nat -> nat -> R) (k i : nat) : R := row_dot f k i i.

(** Mean and (population) variance of a list of reals, and the values of
    a column and of a row of a real array. *)
Definition rmean (l : list R) : R := (rsum l / INR (length l))%R.
Definition rvar (l : list R) : R :=
  rmean (map (fun v => (v - rmean l) * (v - rmean l))%R l).
Definition column (f : nat -> nat -> R) (n j : nat) : list R :=
  map (fun i => f i j) (seq 0 n).
Definition row (f : nat -> nat -> R) (m i : nat) : list R :=
  map (fun j => f i j) (seq 0 m).

(** The sorted, deduplicated union of two label lists, as the
    specification words the canonical sequences of union mode. *)
Definition sorted_union (a b : list string) : list string :=
  sorted (remove_dups (a ++ b)).

(** The labels a table contributes: the gene column and the TF column of
    the motif prior, both TF columns of the PPI table, the index of the
    expression table; none when the table is absent. *)
Definition motif_gene_labels (motif_file : option triples) : list string :=
  match motif_file with Some t => column1 t | None => [] end.
Definition motif_tf_labels (motif_file : option triples) : list string :=
  match motif_file with Some t => column0 t | None => [] end.
Definition ppi_labels (ppi_file : option triples) : list string :=
  match ppi_file with Some p => column0 p ++ column1 p | None => [] end.
Definition expression_labels (expression_file : option expression_table)
  : list string :=
  match expression_file with Some e => index e | None => [] end.

(** The edge list as the specification words it: for every gene in
    order, one row for every TF in order, with the cell [(tf, gene)] of
    the unnormalized motif matrix and of the final matrix. *)
Definition column_major_edges (unique_tfs gene_names : list string)
    (motif_matrix_unnormalized motif_matrix
       : matrix (length unique_tfs) (length gene_names)) : list edge :=
  mjoin (imap (fun j g =>
           imap (fun i t => Edge t g (cell motif_matrix_unnormalized i j)
                                     (cell motif_matrix i j))
                unique_tfs)
         gene_names).


(** A square array that equals its transpose. *)
Definition symmetric {n} (a : matrix n n) : Prop :=
  forall i j, cell a i j = cell a j i.

(** The dot product of row [i] of [f] with column [j] of [g], and the
    squared norm of column [j] of [g] ([k] is the shared dimension). *)
Definition cross_dot (f g : nat -> nat -> R) (k i j : nat) : R :=
  rsum (map (fun l => f i l * g l j)%R (seq 0 k)).
Definition col_norm2 (g : nat -> nat -> R) (k j : nat) : R :=
  rsum (map (fun l => g l j * g l j)%R (seq 0 k)).


(** The value that a sequence of flat assignments leaves at position [p]:
    the one written last, if any. *)
Definition last_write (p : nat) (idx : list nat) (vals : list fnum) : option fnum :=
  foldl (fun acc kv => if kv.1 =? p then Some kv.2 else acc) None (zip idx vals).

End Reference.

Import Reference.

(* ===================================================================== *)
(** * Properties of the arithmetic                                        *)
(* ===================================================================== *)

Section FloatFacts.

Lemma Reqb_true (a b : R) : a = b -> Reqb a b = true.
Proof. intros H; unfold Reqb; destruct (Req_dec_T a b); congruence. Qed.

Lemma Reqb_false (a b : R) : a <> b -> Reqb a b = false.
Proof. intros H; unfold Reqb; destruct (Req_dec_T a b); congruence. Qed.

Lemma Rltb_true (a b : R) : (a < b)%R -> Rltb a b = true.
Proof. intros H; unfold Rltb; destruct (Rlt_dec a b); tauto. Qed.

Lemma Rltb_false (a b : R) : (b <= a)%R -> Rltb a b = false.
Proof. intros H; unfold Rltb; destruct (Rlt_dec a b); [lra | reflexivity]. Qed.

Lemma fmul_comm (x y : fnum) : (x * y)%fl = (y * x)%fl.
Proof.
  destruct x as [|s|a], y as [|t|b]; simpl; try reflexivity.
  - now rewrite xorb_comm.
  - now rewrite Rmult_comm.
Qed.


Lemma fle_fgt_false (x y : fnum) : fle x y = true -> fgt x y = false.
Proof.
  destruct x as [|s|a], y as [|t|b]; simpl; try discriminate; try reflexivity.
  - destruct s, t; simpl; congruence.
  - now destruct s.
  - now destruct t.
  - now destruct (Rltb b a).
Qed.


End FloatFacts.

(* ===================================================================== *)
(** * Properties of the message-passing loop                              *)
(* ===================================================================== *)

Section LoopFacts.
Context {num_tfs num_genes : nat}.
Variable alpha : fnum.
Implicit Types s r : state num_tfs num_genes.

Lemma while_loop_exit fuel s :
  fgt (hamming s) tolerance = false -> while_loop alpha fuel s = Some s.
Proof. intros H; destruct fuel; simpl; now rewrite H. Qed.


Lemma after_S k s : after alpha (S k) s = panda_pass alpha (after alpha k s).
Proof. reflexivity. Qed.








End LoopFacts.

(** Evaluation of the arithmetic on concrete reals. *)
Ltac rsolve :=
  cbn [INR];
  try (unfold Rabs;
       repeat match goal with
              | |- context [Rcase_abs ?x] => destruct (Rcase_abs x)
              end);
  lra.

(** Unfold the array operations down to the arithmetic on cells. *)
Ltac feval :=
  cbv -[fadd fsub fneg fmul fdiv fsqrt fabs fexp fgt fle fmin fmax isnan
        nan_to_num Rplus Rmult Rminus Rdiv Ropp Rinv sqrt Rabs exp INR IZR
        Rlt Rle Reqb Rltb].

(** Compute the arithmetic on cells, deciding the tests on reals. *)
Ltac fstep :=
  cbn [fadd fsub fneg fmul fdiv fsqrt fabs fexp fgt fle fmin fmax isnan
       nan_to_num Bool.eqb xorb negb andb orb];
  repeat (match goal with
          | |- context [Reqb ?a ?b] =>
              first [ rewrite (Reqb_true a b) by rsolve
                    | rewrite (Reqb_false a b) by rsolve ]
          | |- context [Rltb ?a ?b] =>
              first [ rewrite (Rltb_true a b) by rsolve
                    | rewrite (Rltb_false a b) by rsolve ]
          end;
          cbn [fadd fsub fneg fmul fdiv fsqrt fabs fexp fgt fle fmin fmax isnan
               nan_to_num Bool.eqb xorb negb andb orb]).

(** Replace the first square root of the goal by its value [v]. *)
Ltac sqrt_is v :=
  match goal with
  | |- context [sqrt ?e] =>
      replace (sqrt e) with v by (symmetry; apply sqrt_lem_1; rsolve)
  end.

Lemma Fin_eq (a b : R) : a = b -> Fin a = Fin b.
Proof. now intros ->. Qed.

Section LoopClaims.
Import Loop.
Context {num_tfs num_genes : nat}.
Variable alpha : fnum.
Implicit Types s r : state num_tfs num_genes.

(** C1. On a pass whose convergence metric (the mean absolute difference
    between the motif matrix and the consensus update [W]) is at most
    0.001, the PPI and correlation matrices are left as they were, the
    motif matrix is still blended to [(1 - alpha) * M + alpha * W], and
    the loop exits right after that pass. *)
Theorem terminal_pass_frame s :
  fle (metric s) tolerance = true ->
  ppi_matrix (panda_pass alpha s) = ppi_matrix s /\
  correlation_matrix (panda_pass alpha s) = correlation_matrix s /\
  motif_matrix (panda_pass alpha s) = blend alpha (motif_matrix s) (consensus s) /\
  (forall i j, cell (motif_matrix (panda_pass alpha s)) i j =
     ((Fin 1 - alpha) * cell (motif_matrix s) i j
      + alpha * cell (consensus s) i j)%fl) /\
  forall fuel, while_loop alpha fuel (panda_pass alpha s) = Some (panda_pass alpha s).
Proof.
  intros Hle. pose proof (fle_fgt_false _ _ Hle) as Hgt.
  assert (Hpass : panda_pass alpha s =
            State (blend alpha (motif_matrix s) (consensus s))
                  (ppi_matrix s) (correlation_matrix s) (S (step s)) (metric s)).
  { unfold panda_pass. now rewrite Hgt. }
  rewrite Hpass; cbn [ppi_matrix correlation_matrix motif_matrix].
  repeat split.
  - intros i j. cbn. now rewrite (fmul_comm (cell (motif_matrix s) i j)).
  - intros fuel. apply while_loop_exit. exact Hgt.
Qed.


Lemma entry_test_holds : fgt (Fin 1) tolerance = true.
Proof. unfold tolerance. fstep. reflexivity. Qed.


Lemma panda_loop_0 (C : matrix num_genes num_genes) (M : matrix num_tfs num_genes)
    (P : matrix num_tfs num_tfs) :
  panda_loop alpha 0 C M P = None.
Proof.
  unfold panda_loop, entry. cbn [while_loop hamming]. now rewrite entry_test_holds.
Qed.




End LoopClaims.

(** ** Runs on arrays of shape [(1, 1)] *)

Section LoopSamples.
Import Loop.

Lemma metric_converged_sample :
  metric (entry (scalar 1) (scalar 1) (scalar 1)) = Fin 0.
Proof. feval. fstep. sqrt_is 1%R. fstep. apply Fin_eq; rsolve. Qed.

Lemma metric_far_sample :
  metric (entry (scalar (-1)) (scalar 1) (scalar 1)) = Fin 1.
Proof.
  feval. fstep. sqrt_is 1%R. fstep. sqrt_is 1%R. fstep.
  apply Fin_eq; rsolve.
Qed.


Lemma converged_sample_meets_tolerance :
  fle (metric (entry (scalar 1) (scalar 1) (scalar 1))) tolerance = true.
Proof. rewrite metric_converged_sample. unfold tolerance. fstep. reflexivity. Qed.

Lemma terminal_pass_frame_witness :
  fle (metric (entry (scalar 1) (scalar 1) (scalar 1))) tolerance = true /\
  ppi_matrix (panda_pass (Fin (1 / 10)) (entry (scalar 1) (scalar 1) (scalar 1)))
  = scalar 1.
Proof.
  split.
  - exact converged_sample_meets_tolerance.
  - exact (proj1 (terminal_pass_frame (Fin (1 / 10)) _
                    converged_sample_meets_tolerance)).
Defined.




End LoopSamples.

(* ===================================================================== *)
(** * Properties of the similarity kernel                                 *)
(* ===================================================================== *)

Section KernelFacts.
Import Loop.

Lemma foldl_fadd_Fin (l : list R) (a : R) :
  foldl fadd (Fin a) (map Fin l) = Fin (foldl Rplus a l).
Proof. revert a; induction l as [|x l IH]; intros a; [reflexivity|]. cbn. apply IH. Qed.

Lemma fsum_Fin (l : list R) : fsum (map Fin l) = Fin (rsum l).
Proof. apply foldl_fadd_Fin. Qed.

Lemma fsum_map_Fin {A} (g : A -> R) (l : list A) :
  fsum (map (fun a => Fin (g a)) l) = Fin (rsum (map g l)).
Proof. rewrite <- fsum_Fin, map_map. reflexivity. Qed.

Lemma foldl_Rplus_shift (l : list R) (a : R) :
  foldl Rplus a l = (a + rsum l)%R.
Proof.
  unfold rsum. revert a; induction l as [|x l IH]; intros a; cbn.
  - lra.
  - rewrite (IH (a + x)%R), (IH (0 + x)%R). lra.
Qed.

Lemma rsum_cons (x : R) (l : list R) : rsum (x :: l) = (x + rsum l)%R.
Proof. unfold rsum at 1. cbn. rewrite foldl_Rplus_shift. lra. Qed.

Lemma rsum_nonneg (l : list R) : Forall (fun x => 0 <= x)%R l -> (0 <= rsum l)%R.
Proof.
  induction 1 as [|x l Hx _ IH]; [unfold rsum; cbn; lra|].
  rewrite rsum_cons. lra.
Qed.

Variables (n k : nat) (f : nat -> nat -> R).

Lemma dot_self_real i j :
  cell (dot (real_matrix n k f) (transpose (real_matrix n k f))) i j
  = Fin (row_dot f k i j).
Proof. cbn. apply (fsum_map_Fin (fun l => f i l * f j l)%R). Qed.

Lemma row_square_sum_real i :
  fsum (map (fun v => v * v)%fl (row_values (real_matrix n k f) i))
  = Fin (row_norm2 f k i).
Proof.
  unfold row_values. rewrite map_map. cbn.
  apply (fsum_map_Fin (fun l => f i l * f i l)%R).
Qed.

(** The kernel on a real array, cell by cell. *)
Lemma t_function_self_real i j :
  cell (t_function_self (real_matrix n k f)) i j
  = (Fin (row_dot f k i j)
     / fsqrt (Fin (row_norm2 f k j + row_norm2 f k i + - Rabs (row_dot f k i j))))%fl.
Proof.
  unfold t_function_self. cbn [cell].
  rewrite dot_self_real, !row_square_sum_real. reflexivity.
Qed.

Lemma row_dot_identical i j :
  (forall l, l < k -> f i l = f j l) ->
  row_dot f k i j = row_norm2 f k i /\ row_norm2 f k j = row_norm2 f k i.
Proof.
  intros H. unfold row_norm2, row_dot. split; f_equal; apply map_ext_in;
    intros l Hl; apply in_seq in Hl; rewrite H by lia; reflexivity.
Qed.

(** C2 (amended). In self-similarity mode, for two identical rows
    [u = v] with [|u| > 0] the coefficient is the Euclidean norm [|u|]
    (so it is 1 exactly for unit rows), and for two orthogonal non-zero
    rows it is 0. *)
Theorem t_function_self_identical_orthogonal i j :
  ((forall l, l < k -> f i l = f j l) -> (0 < row_norm2 f k i)%R ->
   cell (t_function_self (real_matrix n k f)) i j = Fin (sqrt (row_norm2 f k i))) /\
  (row_dot f k i j = 0%R -> (0 < row_norm2 f k i)%R -> (0 < row_norm2 f k j)%R ->
   cell (t_function_self (real_matrix n k f)) i j = Fin 0).
Proof.
  split.
  - intros Hsame Hpos. rewrite t_function_self_real.
    destruct (row_dot_identical i j Hsame) as [-> ->].
    set (s := row_norm2 f k i) in *.
    replace (s + s + - Rabs s)%R with s by (rewrite Rabs_pos_eq; lra).
    assert (Hsq : (0 < sqrt s)%R) by (apply sqrt_lt_R0; exact Hpos).
    cbn. rewrite Rltb_false by lra. cbn.
    rewrite Reqb_false by lra.
    apply Fin_eq. rewrite <- (sqrt_sqrt s) at 1 by lra. field. lra.
  - intros Horth Hi Hj. rewrite t_function_self_real, Horth.
    rewrite Rabs_R0.
    set (r := (row_norm2 f k j + row_norm2 f k i + - 0)%R).
    assert (Hr : (0 < r)%R) by (unfold r; lra).
    assert (Hsq : (0 < sqrt r)%R) by (apply sqrt_lt_R0; exact Hr).
    cbn. rewrite Rltb_false by lra. cbn.
    rewrite Reqb_false by lra.
    apply Fin_eq. field. lra.
Qed.

End KernelFacts.

Section KernelSamples.
Import Loop.
Local Open Scope R_scope.

(** C2, as stated, fails: for the identical rows [u = v = (2)] the
    coefficient is 2, not 1. *)
Lemma t_function_self_identical_not_one :
  cell (t_function_self (of_rows 2 1 [[2]; [2]])) 0 1 = Fin 2 /\ Fin 2 <> Fin 1.
Proof.
  split.
  - feval. fstep. sqrt_is 2%R. fstep. apply Fin_eq; rsolve.
  - intros [= H]. lra.
Qed.

Lemma t_function_self_identical_orthogonal_witness :
  cell (t_function_self (of_rows 2 2 [[3; 4]; [3; 4]])) 0 1 = Fin 5 /\
  cell (t_function_self (of_rows 2 2 [[1; 0]; [0; 2]])) 0 1 = Fin 0.
Proof.
  split.
  - unfold of_rows.
    rewrite (proj1 (t_function_self_identical_orthogonal 2 2 _ 0 1)).
    + apply Fin_eq. apply sqrt_lem_1; feval; lra.
    + intros [|[|l]] Hl; [reflexivity | reflexivity | lia].
    + feval. lra.
  - unfold of_rows.
    apply (proj2 (t_function_self_identical_orthogonal 2 2 _ 0 1)); feval; lra.
Defined.

End KernelSamples.

(* ===================================================================== *)
(** * Properties of the normalizer                                        *)
(* ===================================================================== *)

Section StatisticsFacts.

Lemma INR_length_nonzero {A} (l : list A) : l <> [] -> INR (length l) <> 0%R.
Proof. destruct l; [congruence|]. intros _. apply not_0_INR. discriminate. Qed.

Lemma mean_of_real (l : list R) :
  l <> [] -> mean_of (map Fin l) = Fin (rmean l).
Proof.
  intros Hl. unfold mean_of, rmean, of_nat. rewrite fsum_Fin, length_map. cbn.
  now rewrite Reqb_false by (apply INR_length_nonzero; exact Hl).
Qed.

Lemma rmean_nonneg (l : list R) :
  Forall (fun x => 0 <= x)%R l -> (0 <= rmean l)%R.
Proof.
  intros H. unfold rmean. destruct l as [|x l].
  - cbn. unfold rsum. cbn. lra.
  - apply Rmult_le_pos; [now apply rsum_nonneg|].
    left. apply Rinv_0_lt_compat. apply lt_0_INR. cbn. lia.
Qed.

Lemma rvar_nonneg (l : list R) : (0 <= rvar l)%R.
Proof.
  apply rmean_nonneg. apply Forall_forall. intros y Hy.
  apply list_elem_of_In, in_map_iff in Hy as (v & <- & _).
  cbv beta. set (d := (v - rmean l)%R). nra.
Qed.

Lemma std_of_real (l : list R) :
  l <> [] -> std_of (map Fin l) = Fin (sqrt (rvar l)).
Proof.
  intros Hl. unfold std_of. rewrite mean_of_real by exact Hl.
  rewrite map_map. cbn.
  change (map (fun x => Fin ((x + - rmean l) * (x + - rmean l))) l)
    with (map (fun x => Fin ((fun v => (v + - rmean l) * (v + - rmean l))%R x)) l).
  rewrite <- (map_map _ Fin), mean_of_real
    by (destruct l; [congruence | discriminate]).
  cbn. rewrite Rltb_false; [reflexivity|].
  apply (rvar_nonneg l).
Qed.

(** A standard score of real values is a real number as soon as the
    variance is not zero. *)
Lemma standard_score_real (l : list R) (v : R) :
  l <> [] -> rvar l <> 0%R ->
  ((Fin v - mean_of (map Fin l)) / std_of (map Fin l))%fl
  = Fin ((v - rmean l) / sqrt (rvar l)).
Proof.
  intros Hl Hvar. rewrite mean_of_real, std_of_real by exact Hl. cbn.
  rewrite Reqb_false; [reflexivity|].
  intros H0. apply sqrt_eq_0 in H0; [congruence | apply rvar_nonneg].
Qed.

End StatisticsFacts.

Section NormalizerFacts.
Variables (n m : nat) (f : nat -> nat -> R).

Lemma col_values_real j :
  col_values (real_matrix n m f) j = map Fin (column f n j).
Proof. unfold col_values, column. now rewrite map_map. Qed.

Lemma row_values_real i :
  row_values (real_matrix n m f) i = map Fin (row f m i).
Proof. unfold row_values, row. now rewrite map_map. Qed.

Lemma column_nonempty i j : i < n -> column f n j <> [].
Proof. unfold column. destruct n; [lia|]. discriminate. Qed.

Lemma row_nonempty i j : j < m -> row f m i <> [].
Proof. unfold row. destruct m; [lia|]. discriminate. Qed.

Lemma zscore0_real i j :
  i < n -> rvar (column f n j) <> 0%R ->
  cell (zscore0 (real_matrix n m f)) i j
  = Fin ((f i j - rmean (column f n j)) / sqrt (rvar (column f n j))).
Proof.
  intros Hi Hvar. unfold zscore0. cbn [cell]. rewrite col_values_real.
  apply standard_score_real; [eapply column_nonempty; eassumption | exact Hvar].
Qed.




End NormalizerFacts.

Section ConstantMatrix.

Lemma rsum_constant (l : list R) (c : R) :
  Forall (fun v => v = c) l -> rsum l = (INR (length l) * c)%R.
Proof.
  induction 1 as [|v l -> _ IH].
  - unfold rsum. cbn. lra.
  - rewrite rsum_cons, IH. change (length (c :: l)) with (S (length l)).
    rewrite S_INR. lra.
Qed.

Lemma rmean_constant (l : list R) (c : R) :
  l <> [] -> Forall (fun v => v = c) l -> rmean l = c.
Proof.
  intros Hl Hc. unfold rmean. rewrite (rsum_constant l c Hc).
  field. now apply INR_length_nonzero.
Qed.

Lemma rvar_constant (l : list R) (c : R) :
  l <> [] -> Forall (fun v => v = c) l -> rvar l = 0%R.
Proof.
  intros Hl Hc. unfold rvar. rewrite (rmean_constant l c Hl Hc).
  apply rmean_constant.
  - destruct l; [congruence | discriminate].
  - apply Forall_forall. intros y Hy.
    apply list_elem_of_In, in_map_iff in Hy as (v & <- & Hv).
    apply list_elem_of_In in Hv. rewrite Forall_forall in Hc.
    rewrite (Hc v Hv). lra.
Qed.

(** The standard score of a value of a constant list is [0/0]. *)
Lemma standard_score_constant (l : list R) (c : R) :
  l <> [] -> Forall (fun v => v = c) l ->
  ((Fin c - mean_of (map Fin l)) / std_of (map Fin l))%fl = NaN.
Proof.
  intros Hl Hc. rewrite mean_of_real, std_of_real by exact Hl.
  rewrite (rmean_constant l c Hl Hc), (rvar_constant l c Hl Hc), sqrt_0.
  cbn. now rewrite !Reqb_true by lra.
Qed.

Lemma flatten_real n m (f : nat -> nat -> R) :
  flatten (real_matrix n m f) = map Fin (flat_map (row f m) (seq 0 n)).
Proof.
  unfold flatten. induction (seq 0 n) as [|i l IH]; [reflexivity|].
  cbn [flat_map]. now rewrite map_app, IH, row_values_real.
Qed.

Variables (n m : nat) (c : R).
Hypotheses (Hn : 0 < n) (Hm : 0 < m).

Lemma constant_column j : Forall (fun v => v = c) (column (fun _ _ => c) n j).
Proof.
  apply Forall_forall. intros y Hy.
  now apply list_elem_of_In, in_map_iff in Hy as (v & <- & _).
Qed.

Lemma constant_row i : Forall (fun v => v = c) (row (fun _ _ => c) m i).
Proof.
  apply Forall_forall. intros y Hy.
  now apply list_elem_of_In, in_map_iff in Hy as (v & <- & _).
Qed.

Lemma constant_flat :
  Forall (fun v => v = c) (flat_map (row (fun _ _ => c) m) (seq 0 n)).
Proof.
  apply Forall_forall. intros y Hy.
  apply list_elem_of_In, in_flat_map in Hy as (i & _ & Hy).
  now apply in_map_iff in Hy as (v & <- & _).
Qed.

Lemma constant_flat_nonempty :
  flat_map (row (fun _ _ => c) m) (seq 0 n) <> [].
Proof using Hn Hm.
  destruct n as [|n']; [lia|]. destruct m as [|m']; [lia|]. discriminate.
Qed.

(** On a constant matrix every cell of the output is NaN: the three
    standard scores, the whole-matrix one included, are [0/0]. *)
Lemma normalize_constant i j :
  cell (_normalize_network (real_matrix n m (fun _ _ => c))) i j = NaN.
Proof using Hn Hm.
  set (x := real_matrix n m (fun _ _ => c)).
  assert (Hcol : forall i j, cell (norm_col x) i j = NaN).
  { intros i' j'. unfold norm_col, zscore0. cbn [cell]. subst x.
    rewrite col_values_real. apply standard_score_constant.
    - apply (column_nonempty n _ 0 j' Hn).
    - apply constant_column. }
  assert (Hrow : forall i j, cell (norm_row x) i j = NaN).
  { intros i' j'. unfold norm_row. destruct (n =? m).
    - cbn [recast transpose cell]. apply Hcol.
    - unfold zscore1. cbn [cell]. subst x.
      rewrite row_values_real. apply standard_score_constant.
      + apply (row_nonempty m _ i' 0 Hm).
      + apply constant_row. }
  assert (Htot : cell (norm_total x) i j = NaN).
  { unfold norm_total, mean, std. cbn [cell]. subst x.
    rewrite flatten_real. apply standard_score_constant.
    - apply constant_flat_nonempty.
    - apply constant_flat. }
  unfold _normalize_network, assign_mask, nan_col, nan_row. cbn [cell].
  rewrite Hcol, Hrow, Htot. reflexivity.
Qed.

End ConstantMatrix.

Section NormalizerSamples.
Local Open Scope R_scope.

(** C4 fails on a constant matrix, here the 2 x 2 matrix of ones: every
    cell of the output is NaN. *)
Theorem normalize_ones_all_nan (i j : nat) :
  cell (_normalize_network (real_matrix 2 2 (fun _ _ => 1))) i j = NaN.
Proof. apply normalize_constant; lia. Qed.


End NormalizerSamples.

Section NoNaN.

Lemma rsum_zero_nonneg (l : list R) :
  Forall (fun x => 0 <= x)%R l -> rsum l = 0%R -> Forall (fun x => x = 0%R) l.
Proof.
  induction 1 as [|x l Hx Hl IH]; [constructor|].
  rewrite rsum_cons. intros Hsum.
  pose proof (rsum_nonneg l Hl) as Hge.
  constructor; [lra | apply IH; lra].
Qed.

(** With zero variance every value is the mean. *)
Lemma rvar_zero_all_mean (l : list R) (v : R) :
  rvar l = 0%R -> In v l -> v = rmean l.
Proof.
  intros Hvar Hv. unfold rvar, rmean at 1 in Hvar. rewrite length_map in Hvar.
  assert (Hlen : INR (length l) <> 0%R).
  { apply INR_length_nonzero. intros ->. destruct Hv. }
  assert (Hsum : rsum (map (fun v => (v - rmean l) * (v - rmean l))%R l) = 0%R).
  { apply (Rmult_eq_reg_r (/ INR (length l))).
    - rewrite Rmult_0_l. exact Hvar.
    - now apply Rinv_neq_0_compat. }
  apply rsum_zero_nonneg in Hsum.
  - rewrite Forall_forall in Hsum.
    specialize (Hsum ((v - rmean l) * (v - rmean l))%R).
    assert (Hz : ((v - rmean l) * (v - rmean l))%R = 0%R).
    { apply Hsum. apply list_elem_of_In, in_map_iff. now exists v. }
    apply Rmult_integral in Hz. lra.
  - apply Forall_forall. intros y Hy.
    apply list_elem_of_In, in_map_iff in Hy as (w & <- & _).
    cbv beta. set (d := (w - rmean l)%R). nra.
Qed.

(** The standard score of a member of a real list is NaN (zero variance)
    or a real number; it is never infinite. *)
Lemma standard_score_member (l : list R) (v : R) :
  In v l ->
  let z := ((Fin v - mean_of (map Fin l)) / std_of (map Fin l))%fl in
  z = NaN \/ exists r, z = Fin r.
Proof.
  intros Hv z. subst z.
  assert (Hl : l <> []) by (intros ->; destruct Hv).
  destruct (Req_dec (rvar l) 0) as [Hz|Hnz].
  - left. rewrite mean_of_real, std_of_real by exact Hl.
    rewrite Hz, sqrt_0, <- (rvar_zero_all_mean l v Hz Hv).
    cbn. now rewrite !Reqb_true by lra.
  - right. eexists. now apply standard_score_real.
Qed.

Lemma fdiv_sqrt2 (a : R) : (Fin a / Fin (sqrt 2))%fl = Fin (a / sqrt 2).
Proof.
  cbn. rewrite Reqb_false; [reflexivity|].
  intros H. apply sqrt_eq_0 in H; lra.
Qed.

Variables (n m : nat) (f : nat -> nat -> R).

Lemma in_column i j : i < n -> In (f i j) (column f n j).
Proof. intros Hi. apply in_map_iff. exists i. split; [reflexivity|]. apply in_seq. lia. Qed.

Lemma in_row i j : j < m -> In (f i j) (row f m i).
Proof. intros Hj. apply in_map_iff. exists j. split; [reflexivity|]. apply in_seq. lia. Qed.

Lemma in_flat i j :
  i < n -> j < m -> In (f i j) (flat_map (row f m) (seq 0 n)).
Proof.
  intros Hi Hj. apply in_flat_map. exists i. split; [apply in_seq; lia|].
  now apply in_row.
Qed.

(** X21. The fallback does its work whenever the whole matrix is not constant:
    on a real matrix with non-zero overall variance no cell of the output
    is NaN, whatever rows and columns are constant. *)
Lemma normalize_no_nan_unless_constant :
  rvar (flat_map (row f m) (seq 0 n)) <> 0%R ->
  forall i j, i < n -> j < m ->
    exists r, cell (_normalize_network (real_matrix n m f)) i j = Fin r.
Proof.
  intros Hvar i j Hi Hj.
  set (x := real_matrix n m f).
  assert (Htot : exists t, cell (norm_total x) i j = Fin t).
  { eexists. unfold norm_total, mean, std. cbn [cell]. subst x.
    rewrite flatten_real. apply standard_score_real; [|exact Hvar].
    intros E. pose proof (in_flat i j Hi Hj) as Hin. rewrite E in Hin.
    destruct Hin. }
  assert (Hcol : cell (norm_col x) i j = NaN \/ exists r, cell (norm_col x) i j = Fin r).
  { unfold norm_col, zscore0. cbn [cell]. subst x. rewrite col_values_real.
    apply standard_score_member. now apply in_column. }
  assert (Hrow : cell (norm_row x) i j = NaN \/ exists r, cell (norm_row x) i j = Fin r).
  { unfold norm_row. destruct (Nat.eqb_spec n m) as [E|E].
    - cbn [recast transpose cell]. unfold norm_col, zscore0. cbn [cell].
      subst x. rewrite col_values_real.
      apply (standard_score_member (column f n i) (f j i)).
      apply in_map_iff. exists j. split; [reflexivity|]. apply in_seq. lia.
    - unfold zscore1. cbn [cell]. subst x. rewrite row_values_real.
      apply standard_score_member. now apply in_row. }
  destruct Htot as [t Ht].
  unfold _normalize_network, assign_mask, combined, nan_col, nan_row. cbn [cell].
  destruct Hcol as [-> | [c ->]], Hrow as [-> | [r ->]]; rewrite ?Ht;
    cbn [isnan andb fadd fmul]; rewrite fdiv_sqrt2; eexists; reflexivity.
Qed.

End NoNaN.

(* ===================================================================== *)
(** * Properties of the edge-list export                                  *)
(* ===================================================================== *)

Section ExportFacts.

Lemma data_frame_app t1 t2 g1 g2 m1 m2 f1 f2 e1 e2 :
  data_frame t1 g1 m1 f1 = Some e1 ->
  data_frame t2 g2 m2 f2 = Some e2 ->
  data_frame (t1 ++ t2) (g1 ++ g2) (m1 ++ m2) (f1 ++ f2) = Some (e1 ++ e2).
Proof.
  revert g1 m1 f1 e1.
  induction t1 as [|t t1 IH]; intros [|g g1] [|mo m1] [|fo f1] e1 H1 H2;
    try discriminate.
  - injection H1 as <-. exact H2.
  - cbn in H1 |- *.
    destruct (data_frame t1 g1 m1 f1) as [e|] eqn:E; [|discriminate].
    injection H1 as <-. now rewrite (IH _ _ _ _ E H2).
Qed.

(** The rows of one gene: all TFs in order. *)
Lemma data_frame_block (u v : nat -> fnum) (g : string) (tfs : list string) b :
  data_frame tfs (replicate (length tfs) g)
             (map u (seq b (length tfs))) (map v (seq b (length tfs)))
  = Some (imap (fun i t => Edge t g (u (b + i)) (v (b + i))) tfs).
Proof.
  revert b. induction tfs as [|t tfs IH]; intros b; [reflexivity|].
  cbn [length replicate seq map data_frame]. rewrite IH, imap_cons.
  cbn [option_map]. rewrite Nat.add_0_r. do 2 f_equal.
  apply imap_ext. intros i x _. cbn. now rewrite Nat.add_succ_r.
Qed.

Variables (unique_tfs gene_names : list string).
Variables (U F : matrix (length unique_tfs) (length gene_names)).

Lemma data_frame_blocks (genes : list string) a :
  data_frame (tile_flatten unique_tfs (length genes))
             (repeat_each genes (length unique_tfs))
             (flat_map (col_values U) (seq a (length genes)))
             (flat_map (col_values F) (seq a (length genes)))
  = Some (mjoin (imap (fun j g =>
             imap (fun i t => Edge t g (cell U i (a + j)) (cell F i (a + j)))
                  unique_tfs) genes)).
Proof.
  revert a. induction genes as [|g genes IH]; intros a; [reflexivity|].
  unfold tile_flatten, repeat_each in *.
  cbn [length replicate concat flat_map seq]. rewrite imap_cons.
  change (mjoin (?b :: ?bs)) with (b ++ mjoin bs).
  apply data_frame_app.
  - unfold col_values. rewrite data_frame_block. cbn [Nat.add].
    now rewrite Nat.add_0_r.
  - rewrite IH. do 2 f_equal. apply imap_ext. intros j x _. cbn.
    now rewrite Nat.add_succ_r.
Qed.

(** The four columns of the export have one length: it never raises. *)
Lemma export_edges_total :
  export_panda_results unique_tfs gene_names U F
  = Some (column_major_edges unique_tfs gene_names U F).
Proof.
  unfold export_panda_results, flatten_F. apply (data_frame_blocks gene_names 0).
Qed.

(** C9. The edge-list export holds exactly one row per (TF, gene) pair,
    with that pair's unnormalized motif weight and its final force; the
    rows come gene by gene with the TF index running fastest: the row of
    TF number [i] and gene number [j] is row number [j * num_tfs + i]. *)
Theorem export_column_major :
  export_panda_results unique_tfs gene_names U F
  = Some (column_major_edges unique_tfs gene_names U F) /\
  length (column_major_edges unique_tfs gene_names U F)
  = length gene_names * length unique_tfs /\
  forall i j t g, unique_tfs !! i = Some t -> gene_names !! j = Some g ->
    column_major_edges unique_tfs gene_names U F !! (j * length unique_tfs + i)
    = Some (Edge t g (cell U i j) (cell F i j)).
Proof.
  assert (Hblocks : Forall (fun l : list edge => length l = length unique_tfs)
            (imap (fun j g =>
               imap (fun i t => Edge t g (cell U i j) (cell F i j)) unique_tfs)
             gene_names)).
  { apply Forall_forall. intros l Hl.
    apply list_elem_of_lookup in Hl as [j Hj].
    rewrite list_lookup_imap in Hj.
    destruct (gene_names !! j); [|discriminate]. injection Hj as <-.
    apply length_imap. }
  split; [|split].
  - apply export_edges_total.
  - unfold column_major_edges. rewrite length_join.
    rewrite (sum_list_fmap_same (length unique_tfs)) by exact Hblocks.
    now rewrite length_imap.
  - intros i j t g Hi Hj. unfold column_major_edges.
    apply join_lookup_Some_same_length'; [exact Hblocks | |].
    + now apply lookup_lt_Some in Hi.
    + eexists. split.
      * rewrite list_lookup_imap, Hj. reflexivity.
      * rewrite list_lookup_imap, Hi. reflexivity.
Qed.

End ExportFacts.

Section ExportSamples.
Local Open Scope string_scope.

Lemma export_column_major_witness :
  let tfs := ["T1"; "T2"] in
  let genes := ["G1"; "G2"; "G3"] in
  let U : matrix (length tfs) (length genes) :=
    of_rows 2 3 [[1; 0; 1]; [0; 1; 0]]%R in
  let F : matrix (length tfs) (length genes) :=
    of_rows 2 3 [[5; 6; 7]; [8; 9; 10]]%R in
  tfs !! 1 = Some "T2" /\ genes !! 2 = Some "G3" /\
  column_major_edges tfs genes U F !! 5 = Some (Edge "T2" "G3" (Fin 0) (Fin 10)).
Proof.
  intros tfs genes U F.
  split; [reflexivity | split; [reflexivity|]].
  exact (proj2 (proj2 (export_column_major tfs genes U F))
           1 2 "T2" "G3" eq_refl eq_refl).
Defined.

End ExportSamples.

(* ===================================================================== *)
(** * Properties of the entity aligner                                    *)
(* ===================================================================== *)

Section LabelOrder.

Lemma ascii_compare_refl (a : Ascii.ascii) : Ascii.compare a a = Eq.
Proof. apply N.compare_refl. Qed.

Lemma ascii_compare_lt_trans (a b c : Ascii.ascii) :
  Ascii.compare a b = Lt -> Ascii.compare b c = Lt -> Ascii.compare a c = Lt.
Proof.
  unfold Ascii.compare. rewrite !N.compare_lt_iff. apply N.lt_trans.
Qed.

Lemma string_leb_trans (a b c : string) :
  String.leb a b = true -> String.leb b c = true -> String.leb a c = true.
Proof.
  unfold String.leb. revert b c.
  induction a as [|x a IH]; intros [|y b] [|z c]; cbn; try easy.
  destruct (Ascii.compare x y) eqn:Exy; try easy;
    destruct (Ascii.compare y z) eqn:Eyz; try easy.
  - apply Ascii.compare_eq_iff in Exy, Eyz. subst.
    rewrite ascii_compare_refl. apply IH.
  - apply Ascii.compare_eq_iff in Exy. subst. now rewrite Eyz.
  - apply Ascii.compare_eq_iff in Eyz. subst. now rewrite Exy.
  - now rewrite (ascii_compare_lt_trans x y z).
Qed.

#[global] Instance label_le_total : Total label_le.
Proof. intros a b. apply String.leb_total. Qed.
#[global] Instance label_le_trans : Transitive label_le.
Proof. intros a b c. apply string_leb_trans. Qed.
#[global] Instance label_le_antisym : AntiSymm (=) label_le.
Proof. intros a b. apply String.leb_antisym. Qed.

Lemma sorted_Sorted (l : list string) : Sorted label_le (sorted l).
Proof. apply Sorted_merge_sort. apply _. Qed.

Lemma sorted_Permutation (l : list string) : sorted l ≡ₚ l.
Proof. apply merge_sort_Permutation. Qed.

Lemma elem_of_sorted (l : list string) x : x ∈ sorted l ↔ x ∈ l.
Proof. now rewrite sorted_Permutation. Qed.

Lemma NoDup_sorted (l : list string) : NoDup l -> NoDup (sorted l).
Proof. now rewrite sorted_Permutation. Qed.

(** A sorted list is left as it is by [sorted]. *)
Lemma sorted_idem (l : list string) : sorted (sorted l) = sorted l.
Proof.
  apply (Sorted_unique label_le); auto using sorted_Sorted, sorted_Permutation.
Qed.

(** Sorting without duplicates only depends on the set of labels. *)
Lemma sorted_set_ext (l k : list string) :
  (forall x, x ∈ l ↔ x ∈ k) -> sorted (remove_dups l) = sorted (remove_dups k).
Proof.
  intros H. apply (Sorted_unique label_le); auto using sorted_Sorted.
  rewrite !sorted_Permutation.
  apply NoDup_Permutation; auto using NoDup_remove_dups.
  intros x. now rewrite !elem_of_remove_dups.
Qed.

Lemma elem_of_sorted_set (l : list string) x : x ∈ sorted (set_of l) ↔ x ∈ l.
Proof. unfold set_of. now rewrite elem_of_sorted, elem_of_remove_dups. Qed.

Lemma elem_of_sorted_union (a b : list string) x :
  x ∈ sorted_union a b ↔ x ∈ a \/ x ∈ b.
Proof.
  unfold sorted_union.
  now rewrite elem_of_sorted, elem_of_remove_dups, elem_of_app.
Qed.

Lemma sorted_union_canonical (a b : list string) :
  Sorted label_le (sorted_union a b) /\ NoDup (sorted_union a b).
Proof.
  split; [apply sorted_Sorted|].
  apply NoDup_sorted, NoDup_remove_dups.
Qed.

End LabelOrder.

Section UnionMode.

Lemma motif_genes_elem motif_file x :
  x ∈ motif_genes_of motif_file ↔ x ∈ motif_gene_labels motif_file.
Proof. destruct motif_file; cbn; [apply elem_of_sorted_set | reflexivity]. Qed.

Lemma motif_tfs_elem motif_file x :
  x ∈ motif_tfs_of motif_file ↔ x ∈ motif_tf_labels motif_file.
Proof. destruct motif_file; cbn; [apply elem_of_sorted_set | reflexivity]. Qed.

(** C5. In union mode the canonical gene sequence is the sorted,
    deduplicated union of the gene labels of the motif prior and of the
    expression table, and the canonical TF sequence is the sorted,
    deduplicated union of the TF labels of the PPI table and of the motif
    prior, whichever tables are supplied. *)
Theorem union_mode_canonical_sets
    (motif_file ppi_file : option triples)
    (expression_file : option expression_table) :
  gene_names_of union motif_file expression_file
  = sorted_union (motif_gene_labels motif_file) (expression_labels expression_file) /\
  unique_tfs_of union motif_file ppi_file
  = sorted_union (ppi_labels ppi_file) (motif_tf_labels motif_file) /\
  (Sorted label_le (gene_names_of union motif_file expression_file) /\
   NoDup (gene_names_of union motif_file expression_file) /\
   forall x, x ∈ gene_names_of union motif_file expression_file ↔
             x ∈ motif_gene_labels motif_file \/ x ∈ expression_labels expression_file) /\
  (Sorted label_le (unique_tfs_of union motif_file ppi_file) /\
   NoDup (unique_tfs_of union motif_file ppi_file) /\
   forall x, x ∈ unique_tfs_of union motif_file ppi_file ↔
             x ∈ ppi_labels ppi_file \/ x ∈ motif_tf_labels motif_file).
Proof.
  assert (Hg : gene_names_of union motif_file expression_file
               = sorted_union (motif_gene_labels motif_file)
                              (expression_labels expression_file)).
  { unfold gene_names_of, np_unique, sorted_union. rewrite sorted_idem.
    apply sorted_set_ext. intros x.
    rewrite !elem_of_app, motif_genes_elem.
    destruct expression_file as [e|]; cbn [expression_genes_of expression_labels].
    - reflexivity.
    - rewrite motif_genes_elem. pose proof (not_elem_of_nil x). tauto. }
  assert (Ht : unique_tfs_of union motif_file ppi_file
               = sorted_union (ppi_labels ppi_file) (motif_tf_labels motif_file)).
  { unfold unique_tfs_of, np_unique, sorted_union. rewrite sorted_idem.
    apply sorted_set_ext. intros x.
    rewrite !elem_of_app, motif_tfs_elem.
    destruct ppi_file as [p|]; cbn [ppi_tfs_of ppi_labels].
    - now rewrite elem_of_sorted_set, elem_of_app.
    - rewrite motif_tfs_elem. pose proof (not_elem_of_nil x). tauto. }
  rewrite Hg, Ht. repeat split;
    try apply sorted_union_canonical; try apply elem_of_sorted_union.
Qed.

End UnionMode.

Section IndexDict.

Lemma index_dict_fold (l : list string) (a : nat) (d : gmap string nat) x i :
  foldl (fun d ix => <[ix.2 := ix.1]> d) d (zip (seq a (length l)) l) !! x = Some i ->
  d !! x = Some i \/ (a <= i < a + length l /\ x ∈ l).
Proof.
  revert a d. induction l as [|y l IH]; intros a d; cbn; [now left|].
  intros H. apply IH in H as [H | [Hi Hx]].
  - cbn in H. destruct (decide (y = x)) as [->|Hne].
    + rewrite lookup_insert_eq in H. injection H as <-.
      right. split; [lia | left].
    + rewrite lookup_insert_ne in H by exact Hne. now left.
  - right. split; [lia | now right].
Qed.

Lemma index_dict_lookup (l : list string) x i :
  index_dict l !! x = Some i -> i < length l /\ x ∈ l.
Proof.
  intros H. apply index_dict_fold in H as [H | [Hi Hx]].
  - now rewrite lookup_empty in H.
  - split; [lia | exact Hx].
Qed.


(** Every label is sent to a valid index of a non-empty sequence. *)
Lemma get0_lt (l : list string) x : l <> [] -> get0 (index_dict l) x < length l.
Proof.
  intros Hl. unfold get0. destruct (index_dict l !! x) as [i|] eqn:E; cbn.
  - now apply index_dict_lookup in E as [E _].
  - destruct l; [congruence | cbn; lia].
Qed.

End IndexDict.

Section FlatAssignment.
Context {n m : nat}.

Lemma flat_index_inj r c r' c' :
  c < m -> c' < m -> r' * m + c' = r * m + c -> r' = r /\ c' = c.
Proof.
  intros Hc Hc' H.
  apply (Nat.div_mod_unique m r' r c' c); [assumption | assumption | lia].
Qed.

Lemma ravel_multi_index_ok (rows cols : list nat) n' m' :
  rows <> [] -> Forall (fun i => i < n') rows -> Forall (fun j => j < m') cols ->
  ravel_multi_index rows cols n' m'
  = Returned (zip_with (fun i j => i * m' + j) rows cols).
Proof.
  intros Hne Hr Hc. unfold ravel_multi_index.
  destruct rows as [|i rows]; [congruence|].
  assert (E1 : forallb (fun i => i <? n') (i :: rows) = true).
  { apply forallb_forall. intros y Hy. apply Nat.ltb_lt.
    rewrite Forall_forall in Hr. apply Hr. now apply list_elem_of_In. }
  assert (E2 : forallb (fun j => j <? m') cols = true).
  { apply forallb_forall. intros y Hy. apply Nat.ltb_lt.
    rewrite Forall_forall in Hc. apply Hc. now apply list_elem_of_In. }
  now rewrite E1, E2.
Qed.


End FlatAssignment.

Section MatrixFromTriples.

Lemma flat_indices_lookup (d : triples) (f g : string -> nat) (m k : nat) :
  zip_with (fun i j => i * m + j) (map f (column0 d)) (map g (column1 d)) !! k
  = (fun r => f r.1.1 * m + g r.1.2) <$> d !! k.
Proof.
  revert k. induction d as [|r d IH]; intros [|k]; cbn; try reflexivity. apply IH.
Qed.


Lemma indices_in_range (d : triples) (f : string -> nat) (col : triples -> list string) b :
  (forall x, f x < b) -> Forall (fun i => i < b) (map f (col d)).
Proof.
  intros Hf. apply Forall_forall. intros i Hi.
  apply list_elem_of_In, in_map_iff in Hi as (x & <- & _). apply Hf.
Qed.

Variables (unique_tfs gene_names : list string).
Hypothesis tfs_nonempty : unique_tfs <> [].
Hypothesis genes_nonempty : gene_names <> [].

Local Abbreviation row_of := (get0 (index_dict unique_tfs)).
Local Abbreviation col_of := (get0 (index_dict gene_names)).



End MatrixFromTriples.


Section TripleSamples.
Local Open Scope string_scope.



End TripleSamples.

(* ===================================================================== *)
(** * Properties of the constructor                                       *)
(* ===================================================================== *)

Section NoMotif.

Lemma length_tile_flatten {A} (l : list A) k :
  length (tile_flatten l k) = k * length l.
Proof.
  unfold tile_flatten. induction k as [|k IH]; [reflexivity|].
  cbn. rewrite length_app, IH. reflexivity.
Qed.

Lemma length_repeat_each {A} (l : list A) k :
  length (repeat_each l k) = length l * k.
Proof.
  unfold repeat_each. induction l as [|a l IH]; [reflexivity|].
  cbn. rewrite length_app, length_replicate, IH. reflexivity.
Qed.

Lemma length_flat_rows {A} (g : nat -> nat -> A) (m k a : nat) :
  length (flat_map (fun i => map (g i) (seq 0 m)) (seq a k)) = k * m.
Proof.
  revert a. induction k as [|k IH]; intros a; [reflexivity|].
  cbn [seq flat_map]. rewrite length_app, IH, length_map, length_seq. reflexivity.
Qed.

Lemma length_flatten {n m} (x : matrix n m) : length (flatten x) = n * m.
Proof. apply (length_flat_rows (fun i j => cell x i j)). Qed.

Lemma pearson_frame_total tfs genes forces :
  length tfs = length forces -> length genes = length forces ->
  exists rows, pearson_frame tfs genes forces = Returned rows.
Proof.
  revert genes forces. induction tfs as [|t tfs IH];
    intros [|g genes] [|f forces] H1 H2; try discriminate.
  - now exists [].
  - cbn. destruct (IH genes forces) as [rows ->]; [cbn in *; lia ..|].
    now eexists.
Qed.


Variables (fuel : nat) (expression_file : option expression_table)
          (ppi_file : option triples) (save_memory : bool)
          (modeProcess : mode) (alpha : fnum).



Lemma canonical_empty (l : list string) : sorted (np_unique l) = [] -> l = [].
Proof.
  intros H. destruct l as [|x l]; [reflexivity|].
  assert (Hx : x ∈ sorted (np_unique (x :: l))).
  { unfold np_unique. rewrite !elem_of_sorted, elem_of_remove_dups. left. }
  rewrite H in Hx. now apply elem_of_nil in Hx.
Qed.

(** The co-expression matrix of a run without motif prior is square over
    the canonical gene sequence. *)
Lemma no_motif_correlation_shape :
  let gene_names := gene_names_of modeProcess None expression_file in
  let expression_data :=
    match modeProcess, expression_file with
    | legacy, _ | _, None => expression_file
    | _, Some e =>
        if length gene_names =? 0 then Some e else Some (realign gene_names e)
    end in
  shape0 (coexpression (length gene_names) expression_data) = length gene_names /\
  shape1 (coexpression (length gene_names) expression_data) = length gene_names.
Proof.
  destruct expression_file as [e|]; [|destruct modeProcess; split; reflexivity].
  destruct modeProcess; cbn -[sorted np_unique realign]; try (split; reflexivity).
  - destruct (Nat.eqb_spec (length (sorted (np_unique (index e)))) 0) as [E|E].
    + cbn. apply nil_length_inv, canonical_empty in E. rewrite E.
      split; reflexivity.
    + cbn. split; reflexivity.
  - destruct (Nat.eqb_spec (length (sorted (np_unique (index e)))) 0) as [E|E].
    + cbn. apply nil_length_inv, canonical_empty in E. rewrite E.
      split; reflexivity.
    + cbn. split; reflexivity.
Qed.

(** Without a motif prior the constructor returns normally exactly when
    the canonical gene sequence is as long as the list of expression
    labels: always in legacy mode, and in the other modes when no
    expression label is repeated. *)
Lemma no_motif_returns_iff_labels_fit :
  (exists p,
     __init__ fuel expression_file None ppi_file save_memory modeProcess alpha
     = Returned p) <->
  length (gene_names_of modeProcess None expression_file)
  = length (expression_genes_of None expression_file).
Proof.
  pose proof no_motif_correlation_shape as [Hs0 Hs1]. cbv zeta in Hs0, Hs1.
  unfold __init__, processData.
  set (genes := gene_names_of modeProcess None expression_file) in *.
  set (corr := coexpression (length genes) _) in *.
  destruct (pearson_frame_total (tile_flatten genes (length genes))
              (repeat_each genes (length genes))
              (flatten (transpose (data corr)))) as [rows Hrows].
  { rewrite length_tile_flatten, length_flatten, Hs0, Hs1. reflexivity. }
  { rewrite length_repeat_each, length_flatten, Hs0, Hs1. reflexivity. }
  unfold __pearson_results_data_frame. rewrite Hrows.
  cbn [mbind outcome_bind]. unfold DataFrame. rewrite Hs0, Hs1, andb_diag.
  destruct (Nat.eqb_spec (length genes)
              (length (expression_genes_of None expression_file))) as [E|E];
    cbn [mbind outcome_bind mret outcome_ret].
  - split; [intros _; exact E | intros _; eexists; reflexivity].
  - split; [intros [p Hp]; discriminate | intros Hl; contradiction].
Qed.

End NoMotif.

(** In legacy mode the labels always fit. *)
Lemma no_motif_legacy_returns fuel expression_file ppi_file save_memory alpha :
  exists p,
    __init__ fuel expression_file None ppi_file save_memory legacy alpha
    = Returned p.
Proof.
  apply no_motif_returns_iff_labels_fit. now destruct expression_file.
Qed.


Section NoMotifSamples.
Local Open Scope string_scope.

(** C7 fails when the expression table repeats a gene label (union
    mode): the co-expression matrix is 2 x 2 over the deduplicated genes,
    the three expression labels do not fit it, and the constructor
    raises. *)
Theorem no_motif_duplicate_labels_raise (fuel : nat) (save_memory : bool) (alpha : fnum) :
  __init__ fuel
    (Some (Expression ["a"; "a"; "b"] 3
             (of_rows 3 3 [[1; 2; 3]; [2; 1; 3]; [1; 3; 2]]%R)))
    None None save_memory union alpha
  = Raised ValueError.
Proof. reflexivity. Qed.

End NoMotifSamples.

(* ===================================================================== *)
(** * The definitions on small inputs                                     *)
(* ===================================================================== *)

Section Examples.
Import Loop.
Local Open Scope string_scope.

(** Union mode: genes and TFs of either source, sorted, once each. *)
Example union_labels_sample :
  let motif := Some [("T2", "g2", Fin 1); ("T1", "g1", Fin 1)] in
  gene_names_of union motif (Some (Expression ["g3"; "g1"; "g3"] 1 (zeros 3 1)))
  = ["g1"; "g2"; "g3"] /\
  unique_tfs_of union motif (Some [("T3", "T1", Fin 1)]) = ["T1"; "T2"; "T3"] /\
  gene_names_of intersection motif (Some (Expression ["g3"; "g1"; "g3"] 1 (zeros 3 1)))
  = ["g1"].
Proof. repeat split; reflexivity. Qed.

(** The dictionary keeps the last position of a repeated label. *)
Example index_dict_sample :
  get0 (index_dict ["a"; "b"; "a"]) "a" = 2 /\
  get0 (index_dict ["a"; "b"; "a"]) "b" = 1 /\
  get0 (index_dict ["a"; "b"; "a"]) "c" = 0.
Proof. repeat split; reflexivity. Qed.

(** A motif matrix from two triples: the cells named, zero elsewhere. *)
Example motif_network_sample :
  exists M, motif_network ["A"; "B"] ["G"; "H"]
              [("A", "H", Fin 3); ("B", "G", Fin 4)] = Returned M /\
            cell M 0 1 = Fin 3 /\ cell M 1 0 = Fin 4 /\
            cell M 0 0 = Fin 0 /\ cell M 1 1 = Fin 0.
Proof. eexists. repeat split; reflexivity. Qed.

(** A PPI matrix: the identity, with every triple written both ways. *)
Example ppi_network_sample :
  exists P, ppi_network ["A"; "B"] (Some [("A", "B", Fin 3)]) = Returned P /\
            cell P 0 1 = Fin 3 /\ cell P 1 0 = Fin 3 /\
            cell P 0 0 = Fin 1 /\ cell P 1 1 = Fin 1.
Proof. eexists. repeat split; reflexivity. Qed.

(** The edge list of a 2 x 2 network. *)
Example export_sample :
  export_panda_results ["T1"; "T2"] ["G1"; "G2"]
    (of_rows 2 2 [[1; 0]; [0; 1]]%R) (of_rows 2 2 [[5; 6]; [7; 8]]%R)
  = Some [Edge "T1" "G1" (Fin 1) (Fin 5); Edge "T2" "G1" (Fin 0) (Fin 7);
          Edge "T1" "G2" (Fin 0) (Fin 6); Edge "T2" "G2" (Fin 1) (Fin 8)].
Proof. reflexivity. Qed.

(** The kernel between the rows of [x] and the columns of [y]. *)
Example t_function_sample :
  cell (t_function (of_rows 1 2 [[3; 4]]%R) (of_rows 2 1 [[3]; [4]]%R)) 0 0 = Fin 5.
Proof. feval. fstep. sqrt_is 5%R. fstep. apply Fin_eq; rsolve. Qed.

(** The diagonal of a 2 x 2 similarity matrix is recomputed from the one
    off-diagonal value of its row, whose standard deviation is 0. *)
Example update_diagonal_sample :
  cell (update_diagonal (of_rows 2 2 [[7; 3]; [3; 7]]%R) 2 (Fin (1 / 10)) 0) 0 0 = Fin 0 /\
  cell (update_diagonal (of_rows 2 2 [[7; 3]; [3; 7]]%R) 2 (Fin (1 / 10)) 0) 0 1 = Fin 3.
Proof.
  split; [|reflexivity].
  feval. fstep. sqrt_is 0%R. fstep. apply Fin_eq; rsolve.
Qed.

(** A matrix with one constant column: the fallback leaves no NaN. *)
Lemma normalize_no_nan_unless_constant_witness :
  rvar (flat_map (row (fun i j => nth j (nth i [[1; 2]; [1; 3]]%R []) 0%R) 2) (seq 0 2))
  <> 0%R /\
  exists r, cell (_normalize_network (of_rows 2 2 [[1; 2]; [1; 3]]%R)) 0 0 = Fin r.
Proof.
  assert (H : rvar (flat_map (row (fun i j => nth j (nth i [[1; 2]; [1; 3]]%R []) 0%R) 2)
                             (seq 0 2)) <> 0%R) by (feval; rsolve).
  split; [exact H|].
  exact (normalize_no_nan_unless_constant 2 2 _ H 0 0 ltac:(lia) ltac:(lia)).
Defined.

(** With a motif prior and no fuel the constructor is still in the loop;
    without one it has returned. *)
Example constructor_sample :
  __init__ 0 None (Some [("T", "G", Fin 1)]) None true union (Fin (1 / 10)) = Running /\
  exists p, __init__ 0 None None None true union (Fin (1 / 10)) = Returned p.
Proof.
  split; [|eexists; reflexivity].
  unfold __init__.
  set (pd := processData _ _ _ _).
  assert (Hpd : exists nw, pd = Returned (Priors nw) /\
                  shape0 (Aligner.correlation_matrix nw) = length (Aligner.gene_names nw))
    by (eexists; split; reflexivity).
  destruct Hpd as (nw & -> & Hshape). cbn [mbind outcome_bind].
  rewrite panda_loop_0.
  destruct (Nat.eqb_spec (shape0 (Aligner.correlation_matrix nw))
              (length (Aligner.gene_names nw))); [reflexivity | contradiction].
Qed.

End Examples.

(* ===================================================================== *)
(** * Further properties of the kernel and of the diagonal update         *)
(* ===================================================================== *)

Section KernelSymmetry.
Import Loop.

Lemma fadd_comm (x y : fnum) : (x + y)%fl = (y + x)%fl.
Proof.
  destruct x as [|s|a], y as [|t|b]; simpl; try reflexivity.
  - destruct s, t; reflexivity.
  - now rewrite Rplus_comm.
Qed.

Context {n k : nat}.

Lemma dot_self_cells_sym (x : matrix n k) i j :
  cell (dot x (transpose x)) i j = cell (dot x (transpose x)) j i.
Proof.
  cbn. f_equal. apply map_ext. intros l. apply fmul_comm.
Qed.

Lemma t_function_self_cells_sym (x : matrix n k) i j :
  cell (t_function_self x) i j = cell (t_function_self x) j i.
Proof.
  unfold t_function_self. cbn [cell].
  rewrite (dot_self_cells_sym x i j). do 3 f_equal. apply fadd_comm.
Qed.

(** The self-similarity branch computes what the two-argument branch
    computes on [x] and its transpose. *)
Lemma t_function_self_is_cross (x : matrix n k) i j :
  cell (t_function_self x) i j = cell (t_function x (transpose x)) i j.
Proof. reflexivity. Qed.

(** X1. The self-similarity kernel is a symmetric matrix, for every
    input array, NaN and infinite cells included. *)
Theorem t_function_self_symmetric (x : matrix n k) :
  symmetric (t_function_self x).
Proof. intros i j. apply t_function_self_cells_sym. Qed.

End KernelSymmetry.

Section KernelOnReals.
Import Loop.

Lemma Rabs_rsum_products (u v : nat -> R) (L : list nat) :
  (2 * Rabs (rsum (map (fun l => u l * v l)%R L))
   <= rsum (map (fun l => u l * u l)%R L) + rsum (map (fun l => v l * v l)%R L))%R.
Proof.
  induction L as [|l L IH].
  - unfold rsum. cbn. rewrite Rabs_R0. lra.
  - cbn [map]. rewrite !rsum_cons.
    pose proof (Rabs_triang (u l * v l)%R
                  (rsum (map (fun l => u l * v l)%R L))) as Ht.
    assert (Hp : (2 * Rabs (u l * v l) <= u l * u l + v l * v l)%R).
    { pose proof (Rle_0_sqr (u l + v l)) as H1.
      pose proof (Rle_0_sqr (u l - v l)) as H2. unfold Rsqr in H1, H2.
      unfold Rabs. destruct (Rcase_abs (u l * v l)); nra. }
    lra.
Qed.

Lemma rsum_squares_nonneg (u : nat -> R) (L : list nat) :
  (0 <= rsum (map (fun l => u l * u l)%R L))%R.
Proof.
  apply rsum_nonneg, Forall_forall. intros y Hy.
  apply list_elem_of_In, in_map_iff in Hy as (l & <- & _). nra.
Qed.

Variables (n k m : nat) (f g : nat -> nat -> R).

Lemma t_function_real i j :
  cell (t_function (real_matrix n k f) (real_matrix k m g)) i j
  = (Fin (cross_dot f g k i j)
     / fsqrt (Fin (col_norm2 g k j + row_norm2 f k i + - Rabs (cross_dot f g k i j))))%fl.
Proof.
  unfold t_function. cbn [cell].
  assert (Ha : cell (dot (real_matrix n k f) (real_matrix k m g)) i j
               = Fin (cross_dot f g k i j)).
  { cbn. apply (fsum_map_Fin (fun l => f i l * g l j)%R). }
  assert (Hy : fsum (map (fun v => v * v)%fl (col_values (real_matrix k m g) j))
               = Fin (col_norm2 g k j)).
  { unfold col_values. rewrite map_map. cbn.
    apply (fsum_map_Fin (fun l => g l j * g l j)%R). }
  rewrite Ha, Hy, row_square_sum_real. reflexivity.
Qed.

(** X2. On real arrays the kernel never produces an infinity: the cell
    for row [i] of [x] and column [j] of [y] is NaN when both vectors are
    zero, and otherwise the real number
    [u.v / sqrt(|u|^2 + |v|^2 - |u.v|)], whose radicand is positive. *)
Theorem t_function_real_or_nan i j :
  (row_norm2 f k i = 0%R -> col_norm2 g k j = 0%R ->
   cell (t_function (real_matrix n k f) (real_matrix k m g)) i j = NaN) /\
  ((0 < row_norm2 f k i + col_norm2 g k j)%R ->
   (0 < col_norm2 g k j + row_norm2 f k i - Rabs (cross_dot f g k i j))%R /\
   cell (t_function (real_matrix n k f) (real_matrix k m g)) i j
   = Fin (cross_dot f g k i j
          / sqrt (col_norm2 g k j + row_norm2 f k i - Rabs (cross_dot f g k i j)))).
Proof.
  assert (Hcs : (2 * Rabs (cross_dot f g k i j)
                 <= row_norm2 f k i + col_norm2 g k j)%R)
    by apply (Rabs_rsum_products (fun l => f i l) (fun l => g l j) (seq 0 k)).
  pose proof (Rabs_pos (cross_dot f g k i j)) as Habs.
  rewrite t_function_real. split.
  - intros Hx Hy. rewrite Hx, Hy in *.
    assert (Ha : Rabs (cross_dot f g k i j) = 0%R) by lra.
    assert (Ha0 : cross_dot f g k i j = 0%R).
    { destruct (Req_dec (cross_dot f g k i j) 0) as [E|E]; [exact E|].
      apply Rabs_no_R0 in E. contradiction. }
    rewrite Ha, Ha0.
    replace (0 + 0 + - 0)%R with 0%R by lra.
    cbn. rewrite Rltb_false by lra. cbn. rewrite sqrt_0.
    now rewrite !Reqb_true by reflexivity.
  - intros Hpos.
    set (r := (col_norm2 g k j + row_norm2 f k i - Rabs (cross_dot f g k i j))%R).
    assert (Hr : (0 < r)%R) by (unfold r; lra).
    split; [exact Hr|].
    change (col_norm2 g k j + row_norm2 f k i + - Rabs (cross_dot f g k i j))%R with r.
    assert (Hsq : (0 < sqrt r)%R) by (apply sqrt_lt_R0; exact Hr).
    cbn. rewrite Rltb_false by lra. cbn. now rewrite Reqb_false by lra.
Qed.

End KernelOnReals.

Section KernelOnRealsSamples.
Import Loop.
Local Open Scope R_scope.

Lemma t_function_real_or_nan_witness :
  cell (t_function (of_rows 1 2 [[0; 0]]) (of_rows 2 1 [[0]; [0]])) 0 0 = NaN /\
  (exists r, cell (t_function (of_rows 1 2 [[3; 4]]) (of_rows 2 1 [[0]; [0]])) 0 0
             = Fin r).
Proof.
  split.
  - unfold of_rows.
    apply (proj1 (t_function_real_or_nan 1 2 1 _ _ 0 0)); feval; lra.
  - unfold of_rows. eexists.
    apply (proj2 (t_function_real_or_nan 1 2 1 _ _ 0 0)). feval. lra.
Defined.

End KernelOnRealsSamples.

Section DiagonalUpdate.
Import Loop.

Lemma update_diagonal_cells {n} (a : matrix n n) num alpha step i j :
  cell (update_diagonal a num alpha step) i j
  = if i =? j
    then (nanstd_of (map (fun j' => if i =? j' then NaN else cell a i j') (seq 0 n))
          * of_nat num * fexp (Fin 2 * alpha * of_nat step))%fl
    else cell a i j.
Proof.
  unfold update_diagonal, fill_diagonal. cbn [cell].
  destruct (i =? j); reflexivity.
Qed.

(** X3. The diagonal calibrator keeps every off-diagonal cell, and the
    diagonal it writes does not depend on the diagonal it replaces: two
    matrices that agree off the diagonal are calibrated to the same
    matrix. *)
Theorem update_diagonal_ignores_diagonal {n} (a a' : matrix n n) num alpha step :
  (forall i j, i <> j -> cell a i j = cell a' i j) ->
  forall i j,
    cell (update_diagonal a num alpha step) i j
    = cell (update_diagonal a' num alpha step) i j /\
    (i <> j -> cell (update_diagonal a num alpha step) i j = cell a i j).
Proof.
  intros Hoff i j. rewrite !update_diagonal_cells. split.
  - destruct (Nat.eqb_spec i j) as [E|E]; [|now apply Hoff].
    do 3 f_equal. apply map_ext. intros j'.
    destruct (Nat.eqb_spec i j'); [reflexivity | now apply Hoff].
  - intros E. now destruct (Nat.eqb_spec i j).
Qed.

(** A matrix of shape (1, 1) has no off-diagonal cell to calibrate
    from: its calibrated diagonal is NaN, whatever the matrix, the
    learning rate and the step. *)
Lemma update_diagonal_single_cell (a : matrix 1 1) num alpha step :
  cell (update_diagonal a num alpha step) 0 0 = NaN.
Proof.
  rewrite update_diagonal_cells. cbn [Nat.eqb seq map].
  assert (Hstd : nanstd_of [NaN] = NaN).
  { unfold nanstd_of.
    change (filter (fun v => isnan v = false) [NaN]) with (@nil fnum).
    unfold std_of, mean_of. cbn. now rewrite !Reqb_true by reflexivity. }
  rewrite Hstd. reflexivity.
Qed.

(** X4. With a single TF, a pass that does not meet the tolerance turns
    the PPI matrix into NaN; with a single gene it turns the correlation
    matrix into NaN. *)
Theorem single_entity_pass_gives_nan alpha :
  (forall num_genes (s : state 1 num_genes),
     fgt (metric s) tolerance = true ->
     cell (ppi_matrix (panda_pass alpha s)) 0 0 = NaN) /\
  (forall num_tfs (s : state num_tfs 1),
     fgt (metric s) tolerance = true ->
     cell (correlation_matrix (panda_pass alpha s)) 0 0 = NaN).
Proof.
  split; intros d s Hgt; unfold panda_pass; rewrite Hgt;
    cbn [ppi_matrix correlation_matrix]; unfold blend; cbn [cell];
    rewrite update_diagonal_single_cell;
    destruct alpha, (_ * _)%fl; reflexivity.
Qed.

Lemma update_diagonal_sym {n} (a : matrix n n) num alpha step :
  symmetric a -> symmetric (update_diagonal a num alpha step).
Proof.
  intros Ha i j. rewrite !update_diagonal_cells.
  destruct (Nat.eqb_spec i j) as [->|E].
  - now rewrite Nat.eqb_refl.
  - destruct (Nat.eqb_spec j i) as [->|_]; [contradiction | apply Ha].
Qed.

Lemma blend_sym {n} alpha (a b : matrix n n) :
  symmetric a -> symmetric b -> symmetric (blend alpha a b).
Proof. intros Ha Hb i j. cbn. now rewrite (Ha i j), (Hb i j). Qed.

(** X5. The loop keeps the PPI and the correlation matrices symmetric:
    if both are symmetric on entry they are symmetric after any number
    of passes. *)
Theorem loop_keeps_symmetry {num_tfs num_genes} alpha (s : state num_tfs num_genes) :
  symmetric (ppi_matrix s) -> symmetric (correlation_matrix s) ->
  forall k, symmetric (ppi_matrix (after alpha k s)) /\
            symmetric (correlation_matrix (after alpha k s)).
Proof.
  intros HP HC k. induction k as [|k [IHP IHC]]; [now split|].
  rewrite after_S. unfold panda_pass.
  destruct (fgt (metric (after alpha k s)) tolerance);
    cbn [ppi_matrix correlation_matrix]; [|now split].
  split; apply blend_sym; try assumption; apply update_diagonal_sym;
    intros i j; apply t_function_self_cells_sym.
Qed.

End DiagonalUpdate.

Section DiagonalSamples.
Import Loop.
Local Open Scope R_scope.

Lemma update_diagonal_ignores_diagonal_witness :
  cell (update_diagonal (of_rows 2 2 [[7; 3]; [3; 7]]) 2 (Fin (1 / 10)) 0) 0 0
  = cell (update_diagonal (of_rows 2 2 [[1; 3]; [3; 5]]) 2 (Fin (1 / 10)) 0) 0 0.
Proof.
  apply (update_diagonal_ignores_diagonal
           (of_rows 2 2 [[7; 3]; [3; 7]]) (of_rows 2 2 [[1; 3]; [3; 5]])).
  intros [|[|i]] [|[|j]] H; try reflexivity; try (now contradiction H);
    cbn; destruct i, j; reflexivity.
Defined.

Lemma single_entity_pass_gives_nan_witness :
  fgt (metric (entry (scalar (-1)) (scalar 1) (scalar 1))) tolerance = true /\
  cell (ppi_matrix (panda_pass (Fin (1 / 10))
                      (entry (scalar (-1)) (scalar 1) (scalar 1)))) 0 0 = NaN.
Proof.
  assert (H : fgt (metric (entry (scalar (-1)) (scalar 1) (scalar 1))) tolerance = true)
    by (rewrite metric_far_sample; exact entry_test_holds).
  split; [exact H|].
  exact (proj1 (single_entity_pass_gives_nan (Fin (1 / 10))) 1%nat _ H).
Defined.

Lemma loop_keeps_symmetry_witness :
  symmetric (ppi_matrix (after (Fin (1 / 10)) 3
               (entry (identity 2) (zeros 2 2) (identity 2)))).
Proof.
  apply (loop_keeps_symmetry (Fin (1 / 10))
           (entry (identity 2) (zeros 2 2) (identity 2))).
  - intros i j. cbn. rewrite (Nat.eqb_sym i j). reflexivity.
  - intros i j. cbn. rewrite (Nat.eqb_sym i j). reflexivity.
Defined.

End DiagonalSamples.

(* ===================================================================== *)
(** * Further properties of the normalizer                                *)
(* ===================================================================== *)

Section SquareNormalization.
Context {n : nat}.
Variable x : matrix n n.

Lemma norm_row_square i j : cell (norm_row x) i j = cell (norm_col x) j i.
Proof. unfold norm_row. now rewrite Nat.eqb_refl. Qed.

(** The output on a square matrix, cell by cell: the last assignment
    that applies wins. *)
Lemma normalize_square_cell i j :
  cell (_normalize_network x) i j
  = if isnan (cell (norm_col x) i j) && isnan (cell (norm_col x) j i)
    then (Fin 2 * cell (norm_total x) i j / Fin (sqrt 2))%fl
    else if isnan (cell (norm_col x) j i)
    then ((cell (norm_col x) i j + cell (norm_total x) i j) / Fin (sqrt 2))%fl
    else if isnan (cell (norm_col x) i j)
    then ((cell (norm_col x) j i + cell (norm_total x) i j) / Fin (sqrt 2))%fl
    else ((cell (norm_col x) i j + cell (norm_col x) j i) / Fin (sqrt 2))%fl.
Proof.
  unfold _normalize_network, assign_mask, combined, nan_col, nan_row. cbn [cell].
  now rewrite !norm_row_square.
Qed.

(** X6. A square matrix none of whose column z-scores is NaN at [(i, j)]
    and [(j, i)] is normalized to the same value at both cells, whether
    the input is symmetric or not: the row z-score is replaced by the
    transposed column z-score. *)
Theorem normalize_square_symmetrizes i j :
  nan_col x i j = false -> nan_col x j i = false ->
  cell (_normalize_network x) i j = cell (_normalize_network x) j i.
Proof.
  unfold nan_col. intros Hij Hji. rewrite !normalize_square_cell, Hij, Hji.
  cbn [andb]. now rewrite fadd_comm.
Qed.

(** X7. A symmetric matrix is normalized to a symmetric matrix, constant
    rows and columns included. *)
Theorem normalize_keeps_symmetry :
  symmetric x -> symmetric (_normalize_network x).
Proof.
  intros Hx i j. rewrite !normalize_square_cell.
  assert (Ht : cell (norm_total x) i j = cell (norm_total x) j i).
  { unfold norm_total. cbn [cell]. now rewrite (Hx i j). }
  rewrite Ht.
  destruct (isnan (cell (norm_col x) i j)), (isnan (cell (norm_col x) j i));
    cbn [andb]; try reflexivity.
  now rewrite fadd_comm.
Qed.

End SquareNormalization.

Section SquareNormalizationSamples.
Local Open Scope R_scope.

Lemma normalize_square_symmetrizes_witness :
  cell (of_rows 2 2 [[1; 2]; [3; 5]]) 0 1 <> cell (of_rows 2 2 [[1; 2]; [3; 5]]) 1 0 /\
  cell (_normalize_network (of_rows 2 2 [[1; 2]; [3; 5]])) 0 1
  = cell (_normalize_network (of_rows 2 2 [[1; 2]; [3; 5]])) 1 0.
Proof.
  split.
  - cbn. intros [= H]. lra.
  - apply normalize_square_symmetrizes; unfold nan_col, norm_col, of_rows;
      rewrite zscore0_real; try reflexivity; try lia; feval; rsolve.
Defined.

Lemma normalize_keeps_symmetry_witness :
  symmetric (_normalize_network (identity 3)).
Proof.
  apply normalize_keeps_symmetry. intros i j. cbn.
  now rewrite (Nat.eqb_sym i j).
Defined.

End SquareNormalizationSamples.

(* ===================================================================== *)
(** * Further properties of the entity aligner                            *)
(* ===================================================================== *)

Section IndexDictRoundTrip.

Lemma zip_seq_snoc {A} (l : list A) (y : A) a :
  zip (seq a (length (l ++ [y]))) (l ++ [y])
  = zip (seq a (length l)) l ++ [(a + length l, y)].
Proof.
  revert a. induction l as [|z l IH]; intros a; cbn.
  - now rewrite Nat.add_0_r.
  - f_equal. rewrite IH. now rewrite Nat.add_succ_r.
Qed.

Lemma index_dict_snoc (l : list string) (y : string) :
  index_dict (l ++ [y]) = <[y := length l]> (index_dict l).
Proof.
  unfold index_dict. now rewrite zip_seq_snoc, foldl_app.
Qed.

Lemma index_dict_lookup_snoc (l : list string) (y x : string) :
  index_dict (l ++ [y]) !! x
  = if decide (y = x) then Some (length l) else index_dict l !! x.
Proof. rewrite index_dict_snoc. apply lookup_insert. Qed.

(** The dictionary sends a label to the position of its last
    occurrence. *)
Lemma index_dict_last (l : list string) (x : string) (i : nat) :
  l !! i = Some x -> (forall i', i < i' -> l !! i' <> Some x) ->
  index_dict l !! x = Some i.
Proof.
  revert i. induction l as [|y l IH] using rev_ind; intros i Hi Hlast.
  - discriminate.
  - rewrite index_dict_lookup_snoc. destruct (decide (y = x)) as [->|Hne].
    + f_equal. destruct (decide (i = length l)) as [->|Hlen]; [reflexivity|].
      exfalso. assert (Hlt : i < length l).
      { apply lookup_lt_Some in Hi. rewrite length_app in Hi. cbn in Hi. lia. }
      apply (Hlast (length l) Hlt).
      rewrite lookup_app_r by lia. now rewrite Nat.sub_diag.
    + assert (Hlt : i < length l).
      { destruct (decide (i < length l)) as [H|H]; [exact H|]. exfalso.
        apply lookup_lt_Some in Hi as Hb. rewrite length_app in Hb. cbn in Hb.
        assert (i = length l) as -> by lia.
        rewrite lookup_app_r, Nat.sub_diag in Hi by lia. cbn in Hi. congruence. }
      apply IH.
      * now rewrite lookup_app_l in Hi by exact Hlt.
      * intros i' Hi' Hx. apply (Hlast i' Hi').
        apply lookup_lt_Some in Hx as Hb. now rewrite lookup_app_l by exact Hb.
Qed.

(** A label of the sequence is sent to a position that holds it. *)
Lemma get0_member (l : list string) (x : string) :
  x ∈ l -> l !! get0 (index_dict l) x = Some x.
Proof.
  induction l as [|y l IH] using rev_ind; intros Hx.
  - now apply elem_of_nil in Hx.
  - unfold get0. rewrite index_dict_lookup_snoc.
    destruct (decide (y = x)) as [->|Hne]; cbn.
    + rewrite lookup_app_r by lia. now rewrite Nat.sub_diag.
    + apply elem_of_app in Hx as [Hx|Hx].
      * specialize (IH Hx). apply lookup_lt_Some in IH as Hb.
        rewrite lookup_app_l by exact Hb. exact IH.
      * apply list_elem_of_singleton in Hx. congruence.
Qed.

(** X8. Round trip through the label dictionary: looking up the label
    stored at position [i] gives back [i] when the label does not occur
    again later (so always in a duplicate-free sequence); with
    duplicates the last position wins, and a label that is not in the
    sequence has no entry. *)
Theorem index_dict_round_trip (l : list string) :
  (forall i x, l !! i = Some x -> (forall i', i < i' -> l !! i' <> Some x) ->
     index_dict l !! x = Some i /\ get0 (index_dict l) x = i) /\
  (NoDup l -> forall i x, l !! i = Some x -> get0 (index_dict l) x = i) /\
  (forall x, x ∉ l -> index_dict l !! x = None).
Proof.
  split; [|split].
  - intros i x Hi Hlast. pose proof (index_dict_last l x i Hi Hlast) as H.
    split; [exact H|]. unfold get0. now rewrite H.
  - intros Hnd i x Hi. unfold get0.
    rewrite (index_dict_last l x i Hi); [reflexivity|].
    intros i' Hlt Hi'. pose proof (NoDup_lookup l i i' x Hnd Hi Hi'). lia.
  - intros x Hx. destruct (index_dict l !! x) as [i|] eqn:E; [|reflexivity].
    apply index_dict_lookup in E as [_ E]. contradiction.
Qed.

End IndexDictRoundTrip.

Section IndexDictSamples.
Local Open Scope string_scope.

Lemma index_dict_round_trip_witness :
  ["a"; "b"; "a"] !! 2 = Some "a" /\ get0 (index_dict ["a"; "b"; "a"]) "a" = 2.
Proof.
  split; [reflexivity|].
  refine (proj2 (proj1 (index_dict_round_trip ["a"; "b"; "a"]) 2 "a" eq_refl _)).
  intros [|[|[|i']]] Hlt; try lia; discriminate.
Defined.

End IndexDictSamples.

Section IntersectionMode.

Lemma elem_of_set_intersection (a b : list string) x :
  x ∈ set_intersection a b ↔ x ∈ a /\ x ∈ b.
Proof.
  unfold set_intersection. rewrite list_elem_of_filter, elem_of_remove_dups. tauto.
Qed.

Lemma elem_of_canonical (l : list string) x : x ∈ sorted (np_unique l) ↔ x ∈ l.
Proof. unfold np_unique. now rewrite !elem_of_sorted, elem_of_remove_dups. Qed.

Lemma canonical_Sorted_NoDup (l : list string) :
  Sorted label_le (sorted (np_unique l)) /\ NoDup (sorted (np_unique l)).
Proof.
  split; [apply sorted_Sorted|].
  unfold np_unique. apply NoDup_sorted, NoDup_sorted, NoDup_remove_dups.
Qed.

(** X9. In intersection mode with a motif prior, the canonical gene
    sequence is sorted, duplicate-free and holds exactly the motif genes
    that are also expression genes, and the canonical TF sequence exactly
    the motif TFs that also occur in the PPI table; an absent expression
    or PPI table restricts nothing. *)
Theorem intersection_mode_canonical_sets
    (motif_data : triples) (ppi_file : option triples)
    (expression_file : option expression_table) :
  (Sorted label_le (gene_names_of intersection (Some motif_data) expression_file) /\
   NoDup (gene_names_of intersection (Some motif_data) expression_file) /\
   forall x, x ∈ gene_names_of intersection (Some motif_data) expression_file ↔
     x ∈ column1 motif_data /\
     match expression_file with Some e => x ∈ index e | None => True end) /\
  (Sorted label_le (unique_tfs_of intersection (Some motif_data) ppi_file) /\
   NoDup (unique_tfs_of intersection (Some motif_data) ppi_file) /\
   forall x, x ∈ unique_tfs_of intersection (Some motif_data) ppi_file ↔
     x ∈ column0 motif_data /\
     match ppi_file with Some p => x ∈ column0 p ++ column1 p | None => True end).
Proof.
  split; (split; [apply canonical_Sorted_NoDup | split; [apply canonical_Sorted_NoDup|]]);
    intros x; cbn [gene_names_of unique_tfs_of];
    rewrite elem_of_canonical, elem_of_set_intersection.
  - change (motif_genes_of (Some motif_data)) with (sorted (set_of (column1 motif_data))).
    rewrite elem_of_sorted_set.
    destruct expression_file as [e|]; cbn [expression_genes_of]; [tauto|].
    cbn [motif_genes_of]. rewrite elem_of_sorted_set. tauto.
  - change (motif_tfs_of (Some motif_data)) with (sorted (set_of (column0 motif_data))).
    rewrite elem_of_sorted_set.
    destruct ppi_file as [p|]; cbn [ppi_tfs_of].
    + rewrite elem_of_sorted_set. tauto.
    + cbn [motif_tfs_of]. rewrite elem_of_sorted_set. tauto.
Qed.

End IntersectionMode.

Section UnionPlacement.





End UnionPlacement.

Section UnionPlacementSamples.
Local Open Scope string_scope.


End UnionPlacementSamples.

Section LastWrite.
Context {n m : nat}.

(** Flat assignment, cell by cell: the last write to a cell wins, and a
    cell that is not addressed keeps its value. *)
Lemma assign_flat_last (a : matrix n m) (idx : list nat) (vals : list fnum) r c :
  cell (assign_flat a idx vals) r c
  = default (cell a r c) (last_write (r * m + c) idx vals).
Proof.
  unfold assign_flat, last_write.
  induction (zip idx vals) as [|kv L IH] using rev_ind; [reflexivity|].
  rewrite !foldl_app. cbn [foldl cell].
  destruct (Nat.eqb_spec (r * m + c) kv.1) as [E|E].
  - rewrite E, Nat.eqb_refl. reflexivity.
  - rewrite (proj2 (Nat.eqb_neq kv.1 (r * m + c))) by congruence. exact IH.
Qed.

Lemma last_write_fold p idx (vals : list fnum) (acc : option fnum) v :
  foldl (fun acc kv => if kv.1 =? p then Some kv.2 else acc) acc (zip idx vals)
  = Some v ->
  acc = Some v \/ exists k, idx !! k = Some p.
Proof.
  revert vals acc. induction idx as [|q idx IH]; intros [|w vals] acc H;
    try (now left).
  cbn [zip zip_with foldl fst snd] in H. apply IH in H as [H | [k Hk]].
  - destruct (Nat.eqb_spec q p) as [->|E]; [right; now exists 0 | now left].
  - right. now exists (S k).
Qed.

Lemma last_write_Some p idx vals v :
  last_write p idx vals = Some v -> exists k, idx !! k = Some p.
Proof.
  intros H. apply last_write_fold in H as [H|H]; [discriminate | exact H].
Qed.

End LastWrite.

Section PPISymmetry.
Variable unique_tfs : list string.
Hypothesis tfs_nonempty : unique_tfs <> [].

Local Abbreviation row_of := (get0 (index_dict unique_tfs)).
Local Abbreviation num := (length unique_tfs).

(** The second pass writes at the transposed cells of the first. *)
Lemma last_write_transposed (d : triples) r c :
  r < num -> c < num ->
  last_write (r * num + c)
    (zip_with (fun i j => i * num + j) (map row_of (column1 d)) (map row_of (column0 d)))
    (column2 d)
  = last_write (c * num + r)
    (zip_with (fun i j => i * num + j) (map row_of (column0 d)) (map row_of (column1 d)))
    (column2 d).
Proof using tfs_nonempty.
  intros Hr Hc. unfold last_write. generalize (@None fnum) as acc.
  induction d as [|[[a b] w] d IH]; intros acc; [reflexivity|].
  cbn [column0 column1 column2 map zip zip_with foldl fst snd].
  assert (E : (row_of b * num + row_of a =? r * num + c)
              = (row_of a * num + row_of b =? c * num + r)).
  { destruct (Nat.eqb_spec (row_of b * num + row_of a) (r * num + c)) as [E1|E1];
    destruct (Nat.eqb_spec (row_of a * num + row_of b) (c * num + r)) as [E2|E2];
      try reflexivity; exfalso.
    - apply flat_index_inj in E1 as [Eb Ea]; [| exact Hc | now apply get0_lt].
      apply E2. now rewrite Ea, Eb.
    - apply flat_index_inj in E2 as [Ea Eb]; [| exact Hr | now apply get0_lt].
      apply E1. now rewrite Ea, Eb. }
  rewrite E. apply IH.
Qed.

Lemma first_pass_index (d : triples) k p :
  zip_with (fun i j => i * num + j) (map row_of (column0 d)) (map row_of (column1 d)) !! k
  = Some p ->
  exists a b w, d !! k = Some (a, b, w) /\ p = row_of a * num + row_of b.
Proof.
  rewrite flat_indices_lookup. destruct (d !! k) as [[[a b] w]|]; [|discriminate].
  intros [= <-]. now exists a, b, w.
Qed.

(** X11. The PPI matrix built from a table is symmetric as long as no
    pair of distinct TFs is listed in both orientations: every triple is
    then read back with the same weight at [(a, b)] and at [(b, a)], and
    the other cells are those of the identity. *)
Theorem ppi_network_symmetric (ppi_data : triples) :
  ppi_data <> [] ->
  (forall k k' a b w a' b' w',
     ppi_data !! k = Some (a, b, w) -> ppi_data !! k' = Some (a', b', w') ->
     (row_of a, row_of b) = (row_of b', row_of a') -> row_of a = row_of b) ->
  exists P, ppi_network unique_tfs (Some ppi_data) = Returned P /\
            forall i j, i < num -> j < num -> cell P i j = cell P j i.
Proof using tfs_nonempty.
  intros Hne Horient. unfold ppi_network.
  rewrite ravel_multi_index_ok;
    [| destruct ppi_data; [congruence | discriminate]
     | apply indices_in_range; intros x; now apply get0_lt ..].
  cbn [mbind outcome_bind].
  rewrite ravel_multi_index_ok;
    [| destruct ppi_data; [congruence | discriminate]
     | apply indices_in_range; intros x; now apply get0_lt ..].
  cbn [mbind outcome_bind].
  eexists. split; [reflexivity|]. intros i j Hi Hj.
  rewrite !assign_flat_last.
  rewrite (last_write_transposed ppi_data i j Hi Hj).
  rewrite (last_write_transposed ppi_data j i Hj Hi).
  set (idx1 := zip_with _ (map row_of (column0 ppi_data)) _).
  assert (Hid : cell (identity num) i j = cell (identity num) j i).
  { cbn. now rewrite (Nat.eqb_sym i j). }
  rewrite Hid.
  destruct (last_write (i * num + j) idx1 (column2 ppi_data)) as [v|] eqn:E1;
    destruct (last_write (j * num + i) idx1 (column2 ppi_data)) as [v'|] eqn:E2;
    cbn [default]; try reflexivity.
  (* both orientations are written: the cell is on the diagonal *)
  apply last_write_Some in E1 as Hk. destruct Hk as [k Hk].
  apply last_write_Some in E2 as Hk'. destruct Hk' as [k' Hk'].
  apply first_pass_index in Hk as (a & b & w & Hd & Hp).
  apply first_pass_index in Hk' as (a' & b' & w' & Hd' & Hp').
  apply flat_index_inj in Hp as [Ha Hb]; [| now apply get0_lt | exact Hj].
  apply flat_index_inj in Hp' as [Ha' Hb']; [| now apply get0_lt | exact Hi].
  assert (Hdiag : row_of a = row_of b).
  { apply (Horient k k' a b w a' b' w' Hd Hd'). congruence. }
  assert (Hij : i = j) by congruence. subst j. congruence.
Qed.

End PPISymmetry.

Section PPISymmetrySamples.
Local Open Scope string_scope.

Lemma ppi_network_symmetric_witness :
  exists P, ppi_network ["A"; "B"; "C"]
              (Some [("A", "B", Fin 3); ("C", "C", Fin 2); ("A", "B", Fin 5)])
            = Returned P /\
            cell P 0 1 = cell P 1 0.
Proof.
  destruct (ppi_network_symmetric ["A"; "B"; "C"] ltac:(discriminate)
              [("A", "B", Fin 3); ("C", "C", Fin 2); ("A", "B", Fin 5)]
              ltac:(discriminate)) as (P & HP & Hsym).
  - intros [|[|[|k]]] [|[|[|k']]] a b w a' b' w' Hk Hk' E;
      try discriminate; injection Hk as <- <- <-; injection Hk' as <- <- <-;
      try reflexivity; vm_compute in E; discriminate.
  - exists P. split; [exact HP|]. apply Hsym; cbn; lia.
Defined.

End PPISymmetrySamples.

Section CoexpressionFacts.




End CoexpressionFacts.

Section CoexpressionSamples.
Local Open Scope string_scope.


End CoexpressionSamples.

Section RealignFacts.

Lemma find_last_snoc {A} (f : A -> bool) (l : list A) (y : A) :
  find_last f (l ++ [y]) = if f y then Some (length l) else find_last f l.
Proof.
  unfold find_last. rewrite zip_seq_snoc, foldl_app. reflexivity.
Qed.

Lemma find_last_Some_intro {A} (f : A -> bool) (l : list A) i y :
  l !! i = Some y -> f y = true ->
  (forall i' y', i < i' -> l !! i' = Some y' -> f y' = false) ->
  find_last f l = Some i.
Proof.
  revert i. induction l as [|z l IH] using rev_ind; intros i Hi Hf Hlast;
    [discriminate|].
  rewrite find_last_snoc. destruct (f z) eqn:Ez.
  - f_equal. destruct (decide (i = length l)) as [->|Hne]; [reflexivity|].
    exfalso. apply lookup_lt_Some in Hi as Hb. rewrite length_app in Hb. cbn in Hb.
    assert (Hz : f z = false); [|congruence].
    apply (Hlast (length l) z); [lia|].
    rewrite lookup_app_r by lia. now rewrite Nat.sub_diag.
  - assert (Hlt : i < length l).
    { destruct (decide (i < length l)) as [H|H]; [exact H|]. exfalso.
      apply lookup_lt_Some in Hi as Hb. rewrite length_app in Hb. cbn in Hb.
      assert (i = length l) as -> by lia.
      rewrite lookup_app_r, Nat.sub_diag in Hi by lia. cbn in Hi. congruence. }
    apply IH with (i := i); [now rewrite lookup_app_l in Hi by exact Hlt | exact Hf |].
    intros i' y' Hi' Hy'. apply (Hlast i' y' Hi').
    apply lookup_lt_Some in Hy' as Hb. now rewrite lookup_app_l by exact Hb.
Qed.

Lemma find_last_None_intro {A} (f : A -> bool) (l : list A) :
  (forall y, y ∈ l -> f y = false) -> find_last f l = None.
Proof.
  induction l as [|z l IH] using rev_ind; intros H; [reflexivity|].
  rewrite find_last_snoc, (H z) by (apply elem_of_app; right; left).
  apply IH. intros y Hy. apply H. apply elem_of_app. now left.
Qed.

Lemma lookup_map {A B} (f : A -> B) (l : list A) i :
  map f l !! i = f <$> l !! i.
Proof. revert i. induction l; intros [|i]; cbn; auto. Qed.

Variables (gene_names : list string) (e : expression_table).
Hypothesis genes_nodup : NoDup gene_names.
Hypothesis labels_known : forall x, x ∈ index e -> x ∈ gene_names.

(** X13. Aligning the expression table to a duplicate-free canonical
    gene sequence that holds all its labels (union mode) keeps every
    gene's expression at the gene's canonical row, the last row when the
    label is repeated, and gives an all-zero row to every canonical gene
    the table lacks. *)
Theorem realign_rows r g :
  gene_names !! r = Some g ->
  (forall i, index e !! i = Some g ->
     (forall i', i < i' -> index e !! i' <> Some g) ->
     forall c, cell (values (realign gene_names e)) r c = cell (values e) i c) /\
  (g ∉ index e ->
   forall c, cell (values (realign gene_names e)) r c = Fin 0) /\
  index (realign gene_names e) = gene_names.
Proof using genes_nodup labels_known.
  intros Hr.
  assert (Hiff : forall x, x ∈ index e ->
            (get0 (index_dict gene_names) x =? r) = true -> x = g).
  { intros x Hx E. apply Nat.eqb_eq in E.
    pose proof (get0_member gene_names x (labels_known x Hx)) as Hm.
    rewrite E in Hm. congruence. }
  assert (Hg : get0 (index_dict gene_names) g = r).
  { unfold get0. rewrite (index_dict_last gene_names g r Hr); [reflexivity|].
    intros i' Hlt Hi'. pose proof (NoDup_lookup gene_names r i' g genes_nodup Hr Hi').
    lia. }
  split; [|split; [|reflexivity]].
  - intros i Hi Hlast c. cbn [realign values cell].
    rewrite (find_last_Some_intro _ _ i (get0 (index_dict gene_names) g)).
    + reflexivity.
    + now rewrite lookup_map, Hi.
    + now apply Nat.eqb_eq.
    + intros i' y' Hlt Hy'. rewrite lookup_map in Hy'.
      destruct (index e !! i') as [x|] eqn:Ex; [|discriminate].
      injection Hy' as <-.
      destruct (get0 (index_dict gene_names) x =? r) eqn:E; [|reflexivity].
      exfalso. apply (Hlast i' Hlt).
      rewrite (Hiff x) in Ex; [exact Ex | | exact E].
      now apply list_elem_of_lookup_2 in Ex.
  - intros Hg' c. cbn [realign values cell].
    rewrite find_last_None_intro; [reflexivity|].
    intros y Hy. apply list_elem_of_In, in_map_iff in Hy as (x & <- & Hx).
    apply list_elem_of_In in Hx.
    destruct (get0 (index_dict gene_names) x =? r) eqn:E; [|reflexivity].
    exfalso. apply Hg'. now rewrite <- (Hiff x Hx E).
Qed.

End RealignFacts.

Section RealignSamples.
Local Open Scope string_scope.

Lemma realign_rows_witness :
  cell (values (realign ["a"; "b"; "c"]
          (Expression ["c"; "a"; "c"] 1 (of_rows 3 1 [[1]; [2]; [3]]%R)))) 2 0
  = Fin 3 /\
  cell (values (realign ["a"; "b"; "c"]
          (Expression ["c"; "a"; "c"] 1 (of_rows 3 1 [[1]; [2]; [3]]%R)))) 1 0
  = Fin 0.
Proof.
  assert (Hnd : NoDup ["a"; "b"; "c"]).
  { apply (bool_decide_unpack (NoDup ["a"; "b"; "c"])). reflexivity. }
  assert (Hknown : forall x, x ∈ ["c"; "a"; "c"] -> x ∈ ["a"; "b"; "c"]).
  { intros x Hx. repeat (apply elem_of_cons in Hx as [->|Hx];
      [repeat first [apply list_elem_of_here | apply list_elem_of_further]|]).
    now apply elem_of_nil in Hx. }
  split.
  - apply (proj1 (realign_rows ["a"; "b"; "c"]
             (Expression ["c"; "a"; "c"] 1 (of_rows 3 1 [[1]; [2]; [3]]%R))
             Hnd Hknown 2 "c" eq_refl) 2 eq_refl).
    intros [|[|[|i']]] Hlt; try lia; discriminate.
  - apply (proj1 (proj2 (realign_rows ["a"; "b"; "c"]
             (Expression ["c"; "a"; "c"] 1 (of_rows 3 1 [[1]; [2]; [3]]%R))
             Hnd Hknown 1 "b" eq_refl))).
    intros Hx. repeat (apply elem_of_cons in Hx as [Hx|Hx]; [discriminate|]).
    now apply elem_of_nil in Hx.
Defined.

End RealignSamples.

(* ===================================================================== *)
(** * Further properties of the run without motif prior                   *)
(* ===================================================================== *)

Section PearsonExport.

Lemma pearson_frame_app t1 t2 g1 g2 f1 f2 e1 e2 :
  pearson_frame t1 g1 f1 = Returned e1 ->
  pearson_frame t2 g2 f2 = Returned e2 ->
  pearson_frame (t1 ++ t2) (g1 ++ g2) (f1 ++ f2) = Returned (e1 ++ e2).
Proof.
  revert g1 f1 e1.
  induction t1 as [|t t1 IH]; intros [|g g1] [|fo f1] e1 H1 H2; try discriminate.
  - injection H1 as <-. exact H2.
  - cbn in H1 |- *.
    destruct (pearson_frame t1 g1 f1) as [| |e] eqn:E; try discriminate.
    injection H1 as <-. now rewrite (IH _ _ _ E H2).
Qed.

Lemma pearson_frame_block (u : nat -> fnum) (g : string) (genes : list string) b :
  pearson_frame genes (replicate (length genes) g) (map u (seq b (length genes)))
  = Returned (imap (fun i t => (t, g, u (b + i))) genes).
Proof.
  revert b. induction genes as [|t genes IH]; intros b; [reflexivity|].
  cbn [length replicate seq map pearson_frame]. rewrite IH, imap_cons.
  cbn. rewrite Nat.add_0_r. do 2 f_equal.
  apply imap_ext. intros i x _. cbn. now rewrite Nat.add_succ_r.
Qed.

Variable gene_names : list string.
Variable c : matrix (length gene_names) (length gene_names).

Lemma pearson_frame_blocks (genes : list string) a :
  pearson_frame (tile_flatten gene_names (length genes))
                (repeat_each genes (length gene_names))
                (flat_map (row_values (transpose c)) (seq a (length genes)))
  = Returned (mjoin (imap (fun j g =>
                imap (fun i t => (t, g, cell c i (a + j))) gene_names) genes)).
Proof.
  revert a. induction genes as [|g genes IH]; intros a; [reflexivity|].
  unfold tile_flatten, repeat_each in *.
  cbn [length replicate concat flat_map seq]. rewrite imap_cons.
  change (mjoin (?b :: ?bs)) with (b ++ mjoin bs).
  apply pearson_frame_app.
  - unfold row_values. cbn [transpose cell].
    rewrite (pearson_frame_block (fun i => cell c i a)). cbn [Nat.add].
    now rewrite Nat.add_0_r.
  - rewrite IH. do 2 f_equal. apply imap_ext. intros j x _. cbn.
    now rewrite Nat.add_succ_r.
Qed.

(** X14. Without a motif prior the exported edge list holds one row per
    ordered pair of canonical genes, [n * n] rows in all: row number
    [j * n + i] carries gene [i] in column [tf], gene [j] in column
    [gene], and the co-expression of the two, cell [(i, j)] of the
    matrix. *)
Theorem pearson_export_rows :
  exists rows,
    __pearson_results_data_frame gene_names
      (Array (length gene_names) (length gene_names) c) = Returned rows /\
    length rows = length gene_names * length gene_names /\
    forall i j gi gj, gene_names !! i = Some gi -> gene_names !! j = Some gj ->
      rows !! (j * length gene_names + i) = Some (gi, gj, cell c i j).
Proof.
  assert (Hblocks : Forall (fun l : list (string * string * fnum) =>
                              length l = length gene_names)
            (imap (fun j g => imap (fun i t => (t, g, cell c i j)) gene_names)
                  gene_names)).
  { apply Forall_forall. intros l Hl.
    apply list_elem_of_lookup in Hl as [j Hj].
    rewrite list_lookup_imap in Hj.
    destruct (gene_names !! j); [|discriminate]. injection Hj as <-.
    apply length_imap. }
  eexists. split; [|split].
  - unfold __pearson_results_data_frame, flatten. cbn [data].
    apply (pearson_frame_blocks gene_names 0).
  - rewrite length_join.
    rewrite (sum_list_fmap_same (length gene_names)) by exact Hblocks.
    now rewrite length_imap.
  - intros i j gi gj Hi Hj. cbn [Nat.add].
    apply join_lookup_Some_same_length'; [exact Hblocks | |].
    + now apply lookup_lt_Some in Hi.
    + eexists. split.
      * rewrite list_lookup_imap, Hj. reflexivity.
      * rewrite list_lookup_imap, Hi. reflexivity.
Qed.

End PearsonExport.

Section PearsonExportSamples.
Local Open Scope string_scope.

Lemma pearson_export_rows_witness :
  exists rows,
    __pearson_results_data_frame ["g1"; "g2"]
      (Array 2 2 (of_rows 2 2 [[1; 5]; [7; 1]]%R)) = Returned rows /\
    rows !! 2 = Some ("g1", "g2", Fin 5).
Proof.
  destruct (pearson_export_rows ["g1"; "g2"] (of_rows 2 2 [[1; 5]; [7; 1]]%R))
    as (rows & Hrows & _ & Hlook).
  exists rows. split; [exact Hrows|].
  exact (Hlook 0 1 "g1" "g2" eq_refl eq_refl).
Defined.

End PearsonExportSamples.

Section NoMotifLabels.




End NoMotifLabels.

Section NoMotifLabelsSamples.
Local Open Scope string_scope.



End NoMotifLabelsSamples.

(* ===================================================================== *)
(** * Properties of the removal of missing entities                       *)
(* ===================================================================== *)

Section RemoveMissing.
Import Missing.

Lemma isin_true (l : list string) x : isin l x = true <-> x ∈ l.
Proof. unfold isin. apply bool_decide_eq_true. Qed.

Lemma filter_all {A} (f : A -> bool) (l : list A) :
  (forall x, In x l -> f x = true) -> List.filter f l = l.
Proof.
  induction l as [|a l IH]; intros H; [reflexivity|].
  cbn. rewrite (H a) by now left. f_equal. apply IH. intros x Hx. apply H. now right.
Qed.

Lemma filter_idem {A} (f : A -> bool) (l : list A) :
  List.filter f (List.filter f l) = List.filter f l.
Proof. apply filter_all. intros x Hx. now apply filter_In in Hx. Qed.

Lemma in_column1 (d : triples) g : g ∈ column1 d <-> exists t w, In (t, g, w) d.
Proof.
  rewrite list_elem_of_In. unfold column1. rewrite in_map_iff. split.
  - intros ([[t g'] w] & <- & H). now exists t, w.
  - intros (t & w & H). now exists (t, g, w).
Qed.

Lemma in_column0 (d : triples) t : t ∈ column0 d <-> exists g w, In (t, g, w) d.
Proof.
  rewrite list_elem_of_In. unfold column0. rewrite in_map_iff. split.
  - intros ([[t' g] w] & <- & H). now exists g, w.
  - intros (g & w & H). now exists (t, g, w).
Qed.

Variables (motif_data : triples) (expression_file : option expression_table)
          (ppi_file : option triples).

(** X16. What [__remove_missing] leaves is closed: every motif triple
    kept has its gene among the gene names, every gene name of a filtered
    expression table is a gene of the motif prior, every PPI triple kept
    joins two TFs of the motif triples kept, and nothing is added to the
    motif prior. *)
Theorem remove_missing_closed :
  let r := remove_missing_of motif_data expression_file ppi_file in
  (forall t g w, In (t, g, w) (Missing.motif_data r) ->
     In (t, g, w) motif_data /\ g ∈ Missing.gene_names r) /\
  (forall e, expression_file = Some e ->
     forall g, g ∈ Missing.gene_names r <-> g ∈ index e /\ g ∈ column1 motif_data) /\
  (forall p a b w, Missing.ppi_data r = Some p -> In (a, b, w) p ->
     a ∈ Missing.unique_tfs r /\ b ∈ Missing.unique_tfs r) /\
  (forall t, t ∈ Missing.unique_tfs r <-> t ∈ column0 (Missing.motif_data r)).
Proof.
  cbv zeta. unfold remove_missing_of, __remove_missing.
  cbn [Missing.motif_data Missing.gene_names Missing.ppi_data Missing.unique_tfs].
  split; [|split; [|split]].
  - intros t g w H. apply filter_In in H as [H1 H2]. cbn in H2.
    split; [exact H1 | now apply isin_true].
  - intros e -> g. cbn [option_map select_rows index].
    rewrite list_elem_of_In, filter_In, isin_true, <- list_elem_of_In. reflexivity.
  - intros p a b w Hp H. destruct ppi_file as [p0|]; [|discriminate].
    injection Hp as <-. apply filter_In in H as [H Hb]. apply filter_In in H as [_ Ha].
    cbn in Ha, Hb. rewrite isin_true in Ha, Hb.
    split; now apply elem_of_sorted_set.
  - intros t. apply elem_of_sorted_set.
Qed.

(** X17. [__remove_missing] is idempotent: run on what it left, it
    removes nothing more from the motif prior, the PPI table, the gene
    names and the TFs. *)
Theorem remove_missing_idempotent :
  let r := remove_missing_of motif_data expression_file ppi_file in
  let r' := __remove_missing (Missing.expression_data r) (Missing.gene_names r)
              (Missing.motif_data r) (Missing.ppi_data r) in
  Missing.motif_data r' = Missing.motif_data r /\
  Missing.ppi_data r' = Missing.ppi_data r /\
  Missing.gene_names r' = Missing.gene_names r /\
  Missing.unique_tfs r' = Missing.unique_tfs r /\
  option_map index (Missing.expression_data r')
  = option_map index (Missing.expression_data r).
Proof.
  cbv zeta. unfold remove_missing_of, __remove_missing.
  cbn [Missing.motif_data Missing.gene_names Missing.ppi_data Missing.unique_tfs
       Missing.expression_data].
  set (genes := match option_map _ expression_file with
                | Some e => index e | None => motif_genes_of (Some motif_data) end).
  set (motif' := List.filter (fun r => isin genes r.1.2) motif_data).
  assert (Hgenes : match option_map (select_rows (isin (column1 motif')))
                           (option_map (select_rows (isin (column1 motif_data)))
                              expression_file) with
                   | Some e => index e | None => genes end = genes).
  { subst genes. destruct expression_file as [e|]; [|reflexivity].
    cbn [option_map select_rows index] in *. apply filter_all.
    intros g Hg. apply isin_true, in_column1.
    pose proof Hg as Hg'. apply filter_In in Hg' as [_ Hm].
    apply isin_true, in_column1 in Hm as (t & w & Hm).
    exists t, w. apply filter_In. split; [exact Hm|].
    cbn. apply isin_true. now apply list_elem_of_In. }
  assert (Hidx : option_map index
            (option_map (select_rows (isin (column1 motif')))
               (option_map (select_rows (isin (column1 motif_data))) expression_file))
          = option_map index
              (option_map (select_rows (isin (column1 motif_data))) expression_file)).
  { destruct expression_file as [e|]; [|reflexivity].
    cbn [option_map select_rows index] in *. f_equal. exact Hgenes. }
  rewrite Hgenes.
  assert (Hmotif : List.filter (fun r => isin genes r.1.2) motif' = motif')
    by apply filter_idem.
  rewrite Hmotif. repeat split; try exact Hidx.
  destruct ppi_file as [p|]; [|reflexivity]. cbn [option_map]. apply (f_equal Some).
  set (q := List.filter _ (List.filter _ p)).
  assert (Hq : forall x, In x q ->
            isin (column0 motif') x.1.1 = true /\ isin (column0 motif') x.1.2 = true).
  { intros x Hx. apply filter_In in Hx as [Hx Hb]. apply filter_In in Hx as [_ Ha].
    now split. }
  rewrite (filter_all _ q) by (intros x Hx; now apply Hq).
  apply filter_all. intros x Hx. now apply Hq.
Qed.

End RemoveMissing.

Section RemoveMissingSamples.
Import Missing.
Local Open Scope string_scope.

(** The rows and triples that survive on a small input. *)
Example remove_missing_sample :
  let r := remove_missing_of
             [("T1", "g1", Fin 1); ("T2", "g9", Fin 1)]
             (Some (Expression ["g1"; "g2"] 1 (of_rows 2 1 [[4]; [5]]%R)))
             (Some [("T1", "T2", Fin 1); ("T1", "T1", Fin 1)]) in
  Missing.gene_names r = ["g1"] /\
  Missing.motif_data r = [("T1", "g1", Fin 1)] /\
  Missing.unique_tfs r = ["T1"] /\
  Missing.ppi_data r = Some [("T1", "T1", Fin 1)] /\
  option_map (fun e => cell (values e) 0 0) (Missing.expression_data r) = Some (Fin 4).
Proof. cbv zeta. repeat split; reflexivity. Qed.

Lemma remove_missing_closed_witness :
  In ("T1", "g1", Fin 1)
     (Missing.motif_data (remove_missing_of
        [("T1", "g1", Fin 1); ("T2", "g9", Fin 1)]
        (Some (Expression ["g1"; "g2"] 1 (of_rows 2 1 [[4]; [5]]%R))) None)) /\
  "g1" ∈ Missing.gene_names (remove_missing_of
        [("T1", "g1", Fin 1); ("T2", "g9", Fin 1)]
        (Some (Expression ["g1"; "g2"] 1 (of_rows 2 1 [[4]; [5]]%R))) None).
Proof.
  assert (H : In ("T1", "g1", Fin 1)
     (Missing.motif_data (remove_missing_of
        [("T1", "g1", Fin 1); ("T2", "g9", Fin 1)]
        (Some (Expression ["g1"; "g2"] 1 (of_rows 2 1 [[4]; [5]]%R))) None)))
    by (left; reflexivity).
  split; [exact H|].
  exact (proj2 (proj1 (remove_missing_closed
           [("T1", "g1", Fin 1); ("T2", "g9", Fin 1)]
           (Some (Expression ["g1"; "g2"] 1 (of_rows 2 1 [[4]; [5]]%R))) None)
           "T1" "g1" (Fin 1) H)).
Defined.

End RemoveMissingSamples.

(* ===================================================================== *)
(** * Properties of the degrees and of the plot labels                    *)
(* ===================================================================== *)

Section DegreeFacts.
Import Degrees.

Variables (unique_tfs gene_names : list string).
Variables (U F : matrix (length unique_tfs) (length gene_names)).

Lemma imap_seq_map {A B} (h : nat -> A -> B) (l : list A) (k : B -> fnum)
    (u : nat -> fnum) b :
  (forall i x, k (h i x) = u (b + i)) ->
  map k (imap h l) = map u (seq b (length l)).
Proof.
  revert h b. induction l as [|x l IH]; intros h b Hk; [reflexivity|].
  rewrite imap_cons. cbn [map length seq]. f_equal.
  - rewrite Hk. now rewrite Nat.add_0_r.
  - apply (IH (h ∘ S) (S b)). intros i y. cbn. rewrite Hk. f_equal. lia.
Qed.

Lemma filter_none {A} (f : A -> bool) (l : list A) :
  (forall x, In x l -> f x = false) -> List.filter f l = [].
Proof.
  induction l as [|a l IH]; intros H; [reflexivity|].
  cbn. rewrite (H a) by now left. apply IH. intros x Hx. apply H. now right.
Qed.

(** The rows of gene number [j] among the exported rows. *)
Lemma gene_rows (genes : list string) (blk : nat -> string -> list edge) g j a :
  NoDup genes -> genes !! j = Some g ->
  (forall j' g' e, In e (blk j' g') -> gene e = g') ->
  List.filter (fun r => String.eqb (gene r) g) (mjoin (imap (fun j g => blk (a + j) g) genes))
  = blk (a + j) g.
Proof.
  intros Hnd Hj Hblk. revert j a Hj.
  induction genes as [|g0 genes IH]; intros j a Hj; [discriminate|].
  rewrite imap_cons. change (mjoin (?b :: ?bs)) with (b ++ mjoin bs).
  rewrite List.filter_app. apply NoDup_cons in Hnd as [Hg0 Hnd].
  destruct j as [|j]; cbn in Hj.
  - injection Hj as ->. rewrite Nat.add_0_r.
    rewrite filter_all.
    2:{ intros e He. apply String.eqb_eq. eapply Hblk, He. }
    rewrite filter_none; [apply app_nil_r|].
    intros e He. apply list_elem_of_In, list_elem_of_join in He as (l & He & Hl).
    apply list_elem_of_In in He.
    apply list_elem_of_lookup in Hl as [j' Hl].
    rewrite list_lookup_imap in Hl.
    destruct (genes !! j') as [g'|] eqn:Eg'; [|discriminate]. injection Hl as <-.
    apply String.eqb_neq. rewrite (Hblk _ _ _ He). intros ->.
    apply Hg0. now apply list_elem_of_lookup_2 in Eg'.
  - rewrite filter_none.
    2:{ intros e He. apply String.eqb_neq. rewrite Nat.add_0_r in He.
        rewrite (Hblk _ _ _ He). intros ->.
        apply Hg0. now apply list_elem_of_lookup_2 in Hj. }
    cbn [app]. replace (a + S j) with (S a + j) by lia.
    rewrite <- (IH Hnd j (S a) Hj). do 2 f_equal.
    apply imap_ext. intros i x _. cbn. f_equal. lia.
Qed.

Lemma keys_of_groups (rows : list (string * fnum)) :
  map fst (groupby_sum rows) = sorted (set_of (map fst rows)).
Proof. unfold groupby_sum. rewrite map_map. cbn. apply map_id. Qed.

Lemma group_value (rows : list (string * fnum)) k :
  k ∈ map fst rows ->
  In (k, nansum (map snd (List.filter (fun r => String.eqb r.1 k) rows)))
     (groupby_sum rows).
Proof.
  intros Hk. unfold groupby_sum. apply in_map_iff. exists k.
  split; [reflexivity|]. apply list_elem_of_In. now apply elem_of_sorted_set.
Qed.

Lemma filter_map_comm {A B} (h : A -> B) (p : B -> bool) (l : list A) :
  List.filter p (map h l) = map h (List.filter (fun a => p (h a)) l).
Proof.
  induction l as [|a l IH]; [reflexivity|]. cbn.
  destruct (p (h a)); cbn; now rewrite IH.
Qed.

(** X18. The in-degree table has one row per gene that the edge list
    names, the genes sorted, and the in-degree of gene number [j] is the
    sum of column [j] of the final matrix, NaN cells skipped (genes
    without duplicate, at least one TF). *)
Theorem indegree_is_column_sum :
  NoDup gene_names -> unique_tfs <> [] ->
  map fst (return_panda_indegree (column_major_edges unique_tfs gene_names U F))
  = sorted gene_names /\
  forall j g, gene_names !! j = Some g ->
    In (g, nansum (col_values F j))
       (return_panda_indegree (column_major_edges unique_tfs gene_names U F)).
Proof.
  intros Hnd Htfs.
  set (blk := fun j g => imap (fun i t => Edge t g (cell U i j) (cell F i j)) unique_tfs).
  assert (Hblk : forall j' g' e, In e (blk j' g') -> gene e = g').
  { intros j' g' e He. apply list_elem_of_In, list_elem_of_lookup in He as [i He].
    unfold blk in He. rewrite list_lookup_imap in He.
    destruct (unique_tfs !! i); [|discriminate]. now injection He as <-. }
  assert (Hkeys : forall g, g ∈ map (fun e => gene e)
                    (column_major_edges unique_tfs gene_names U F) <-> g ∈ gene_names).
  { intros g. rewrite list_elem_of_In, in_map_iff. split.
    - intros (e & <- & He). unfold column_major_edges in He.
      apply list_elem_of_In, list_elem_of_join in He as (l & He & Hl).
      apply list_elem_of_In in He.
      apply list_elem_of_lookup in Hl as [j Hl].
      rewrite list_lookup_imap in Hl.
      destruct (gene_names !! j) as [g'|] eqn:Eg; [|discriminate]. injection Hl as <-.
      rewrite (Hblk j g' e He). now apply list_elem_of_lookup_2 in Eg.
    - intros Hg. apply list_elem_of_lookup in Hg as [j Hj].
      assert (Ht : exists t, unique_tfs !! 0 = Some t).
      { apply lookup_lt_is_Some_2.
        destruct (decide (0 < length unique_tfs)) as [H|H]; [exact H|].
        exfalso. apply Htfs, nil_length_inv. lia. }
      destruct Ht as [t Ht].
      exists (Edge t g (cell U 0 j) (cell F 0 j)). split; [reflexivity|].
      unfold column_major_edges. apply list_elem_of_In. apply list_elem_of_join.
      exists (blk j g). split.
      + apply list_elem_of_lookup. exists 0. unfold blk.
        rewrite list_lookup_imap, Ht. reflexivity.
      + apply list_elem_of_lookup. exists j.
        rewrite list_lookup_imap, Hj. reflexivity. }
  split.
  - unfold return_panda_indegree. rewrite keys_of_groups, map_map. cbn [fst].
    apply (Sorted_unique label_le); auto using sorted_Sorted.
    rewrite !sorted_Permutation.
    apply NoDup_Permutation; [apply NoDup_remove_dups | exact Hnd |].
    intros g. unfold set_of. rewrite elem_of_remove_dups. apply Hkeys.
  - intros j g Hj. unfold return_panda_indegree.
    pose proof (group_value (map (fun e => (gene e, force e))
                  (column_major_edges unique_tfs gene_names U F)) g) as Hv.
    rewrite map_map in Hv. cbn [fst] in Hv.
    specialize (Hv (proj2 (Hkeys g) (list_elem_of_lookup_2 _ _ _ Hj))).
    rewrite filter_map_comm, map_map in Hv. cbn [fst snd] in Hv.
    unfold column_major_edges in Hv.
    pose proof (gene_rows gene_names blk g j 0 Hnd Hj Hblk) as Hrows.
    cbn [Nat.add] in Hrows. unfold blk in Hrows. rewrite Hrows in Hv.
    rewrite (imap_seq_map _ unique_tfs force (fun i => cell F i j) 0) in Hv
      by reflexivity.
    exact Hv.
Qed.


Lemma filter_join {A} (p : A -> bool) (ls : list (list A)) :
  List.filter p (mjoin ls) = mjoin (map (List.filter p) ls).
Proof.
  induction ls as [|l ls IH]; [reflexivity|].
  change (mjoin (l :: ls)) with (l ++ mjoin ls).
  rewrite List.filter_app, IH. reflexivity.
Qed.

(** The row of TF [t] inside the block of one gene. *)
Lemma tf_row_of_block (tfs : list string) (h : nat -> string -> edge) t i b :
  NoDup tfs -> tfs !! i = Some t -> (forall i' t', tf (h i' t') = t') ->
  List.filter (fun r => String.eqb (tf r) t) (imap (fun i t => h (b + i) t) tfs)
  = [h (b + i) t].
Proof.
  intros Hnd Hi Hh. revert i b Hi.
  induction tfs as [|t0 tfs IH]; intros i b Hi; [discriminate|].
  rewrite imap_cons. apply NoDup_cons in Hnd as [Ht0 Hnd]. cbn [List.filter].
  rewrite Hh. destruct i as [|i]; cbn in Hi.
  - injection Hi as ->. rewrite String.eqb_refl. f_equal.
    apply filter_none. intros e He.
    apply list_elem_of_In, list_elem_of_lookup in He as [i' He].
    rewrite list_lookup_imap in He.
    destruct (tfs !! i') as [t'|] eqn:Et'; [|discriminate]. injection He as <-.
    cbn. rewrite Hh. apply String.eqb_neq. intros ->.
    apply Ht0. now apply list_elem_of_lookup_2 in Et'.
  - rewrite (proj2 (String.eqb_neq t0 t)).
    2:{ intros ->. apply Ht0. now apply list_elem_of_lookup_2 in Hi. }
    replace (b + S i) with (S b + i) by lia.
    rewrite <- (IH Hnd i (S b) Hi). f_equal.
    apply imap_ext. intros i' x _. cbn. f_equal. lia.
Qed.

(** X19. The out-degree table has one row per TF that the edge list
    names, the TFs sorted, and the out-degree of TF number [i] is the
    sum of row [i] of the final matrix, NaN cells skipped (TFs without
    duplicate, at least one gene). *)
Theorem outdegree_is_row_sum :
  NoDup unique_tfs -> gene_names <> [] ->
  map fst (return_panda_outdegree (column_major_edges unique_tfs gene_names U F))
  = sorted unique_tfs /\
  forall i t, unique_tfs !! i = Some t ->
    In (t, nansum (row_values F i))
       (return_panda_outdegree (column_major_edges unique_tfs gene_names U F)).
Proof.
  intros Hnd Hgenes.
  assert (Hkeys : forall t, t ∈ map (fun e => tf e)
                    (column_major_edges unique_tfs gene_names U F) <-> t ∈ unique_tfs).
  { intros t. rewrite list_elem_of_In, in_map_iff. split.
    - intros (e & <- & He). unfold column_major_edges in He.
      apply list_elem_of_In, list_elem_of_join in He as (l & He & Hl).
      apply list_elem_of_lookup in Hl as [j Hl].
      rewrite list_lookup_imap in Hl.
      destruct (gene_names !! j) as [g'|]; [|discriminate]. injection Hl as <-.
      apply list_elem_of_lookup in He as [i He]. rewrite list_lookup_imap in He.
      destruct (unique_tfs !! i) as [t'|] eqn:Et; [|discriminate]. injection He as <-.
      cbn. now apply list_elem_of_lookup_2 in Et.
    - intros Ht. apply list_elem_of_lookup in Ht as [i Hi].
      assert (Hg : exists g, gene_names !! 0 = Some g).
      { apply lookup_lt_is_Some_2.
        destruct (decide (0 < length gene_names)) as [H|H]; [exact H|].
        exfalso. apply Hgenes, nil_length_inv. lia. }
      destruct Hg as [g Hg].
      exists (Edge t g (cell U i 0) (cell F i 0)). split; [reflexivity|].
      unfold column_major_edges. apply list_elem_of_In. apply list_elem_of_join.
      exists (imap (fun i t => Edge t g (cell U i 0) (cell F i 0)) unique_tfs). split.
      + apply list_elem_of_lookup. exists i. rewrite list_lookup_imap, Hi. reflexivity.
      + apply list_elem_of_lookup. exists 0. rewrite list_lookup_imap, Hg. reflexivity. }
  split.
  - unfold return_panda_outdegree. rewrite keys_of_groups, map_map. cbn [fst].
    apply (Sorted_unique label_le); auto using sorted_Sorted.
    rewrite !sorted_Permutation.
    apply NoDup_Permutation; [apply NoDup_remove_dups | exact Hnd |].
    intros t. unfold set_of. rewrite elem_of_remove_dups. apply Hkeys.
  - intros i t Hi. unfold return_panda_outdegree.
    pose proof (group_value (map (fun e => (tf e, force e))
                  (column_major_edges unique_tfs gene_names U F)) t) as Hv.
    rewrite map_map in Hv. cbn [fst] in Hv.
    specialize (Hv (proj2 (Hkeys t) (list_elem_of_lookup_2 _ _ _ Hi))).
    rewrite filter_map_comm, map_map in Hv. cbn [fst snd] in Hv.
    unfold column_major_edges in Hv. rewrite filter_join in Hv.
    assert (Hrows : forall (genes : list string) a,
              map force (mjoin (map (List.filter (fun r => String.eqb (tf r) t))
                (imap (fun j g =>
                   imap (fun i t => Edge t g (cell U i (a + j)) (cell F i (a + j)))
                        unique_tfs) genes)))
              = map (fun j => cell F i j) (seq a (length genes))).
    { induction genes as [|g genes IH]; intros a; [reflexivity|].
      rewrite imap_cons. cbn [map length seq].
      change (mjoin (?b :: ?bs)) with (b ++ mjoin bs). rewrite map_app.
      pose proof (tf_row_of_block unique_tfs
                 (fun i t => Edge t g (cell U i (a + 0)) (cell F i (a + 0))) t i 0
                 Hnd Hi ltac:(reflexivity)) as Hb.
      cbn [Nat.add] in Hb. rewrite Hb.
      cbn [map app force]. rewrite Nat.add_0_r. f_equal.
      rewrite <- (IH (S a)). do 3 f_equal.
      apply imap_ext. intros j x _. cbn.
      apply imap_ext. intros i' y _. now rewrite Nat.add_succ_r. }
    specialize (Hrows gene_names 0). cbn [Nat.add] in Hrows.
    change (map (fun x : edge => force x)) with (map force) in Hv.
    rewrite Hrows in Hv. exact Hv.
Qed.

End DegreeFacts.

Section DegreeSamples.
Import Degrees.
Local Open Scope string_scope.

(** Degrees of a 2 x 2 network with one NaN force. *)
Example degrees_sample :
  let rows := [Edge "T1" "G1" (Fin 1) (Fin 5); Edge "T2" "G1" (Fin 0) NaN;
               Edge "T1" "G2" (Fin 0) (Fin 6); Edge "T2" "G2" (Fin 1) (Fin 8)] in
  map fst (return_panda_indegree rows) = ["G1"; "G2"] /\
  map fst (return_panda_outdegree rows) = ["T1"; "T2"] /\
  return_panda_indegree [] = [].
Proof. cbv zeta. repeat split; reflexivity. Qed.

Lemma indegree_is_column_sum_witness :
  In ("G2", nansum (col_values (of_rows 2 2 [[5; 6]; [7; 8]]%R : matrix 2 2) 1))
     (return_panda_indegree
        (column_major_edges ["T1"; "T2"] ["G1"; "G2"]
           (of_rows 2 2 [[1; 0]; [0; 1]]%R) (of_rows 2 2 [[5; 6]; [7; 8]]%R))).
Proof.
  refine (proj2 (indegree_is_column_sum ["T1"; "T2"] ["G1"; "G2"]
            (of_rows 2 2 [[1; 0]; [0; 1]]%R) (of_rows 2 2 [[5; 6]; [7; 8]]%R) _ _)
          1 "G2" eq_refl).
  - apply (bool_decide_unpack (NoDup ["G1"; "G2"])). reflexivity.
  - discriminate.
Defined.

Lemma outdegree_is_row_sum_witness :
  In ("T2", nansum (row_values (of_rows 2 2 [[5; 6]; [7; 8]]%R : matrix 2 2) 1))
     (return_panda_outdegree
        (column_major_edges ["T1"; "T2"] ["G1"; "G2"]
           (of_rows 2 2 [[1; 0]; [0; 1]]%R) (of_rows 2 2 [[5; 6]; [7; 8]]%R))).
Proof.
  refine (proj2 (outdegree_is_row_sum ["T1"; "T2"] ["G1"; "G2"]
            (of_rows 2 2 [[1; 0]; [0; 1]]%R) (of_rows 2 2 [[5; 6]; [7; 8]]%R) _ _)
          1 "T2" eq_refl).
  - apply (bool_decide_unpack (NoDup ["T1"; "T2"])). reflexivity.
  - discriminate.
Defined.

End DegreeSamples.

Section PlotLabels.
Import Plot.
Local Open Scope string_scope.

Lemma slice_to_from (k : nat) (s : string) : slice_to k s ++ slice_from k s = s.
Proof.
  revert k. induction s as [|c s IH]; intros [|k]; try reflexivity.
  cbn [slice_to slice_from].
  change (String c (slice_to k s ++ slice_from k s) = String c s).
  now rewrite IH.
Qed.

Lemma length_slice_to (k : nat) (s : string) :
  String.length (slice_to k s) = Nat.min k (String.length s).
Proof.
  revert k. induction s as [|c s IH]; intros [|k]; cbn; try reflexivity.
  now rewrite IH.
Qed.

Lemma length_slice_from (k : nat) (s : string) :
  String.length (slice_from k s) = String.length s - k.
Proof.
  revert k. induction s as [|c s IH]; intros [|k]; cbn; try reflexivity.
  apply IH.
Qed.

(** X20. A plot label of at most six characters is left as it is; a
    longer one is cut in two by a single newline, nothing is lost (the
    two lines put together are the label), and the first line takes the
    extra character of an odd length: the lines have [(ll + 1) / 2] and
    [ll / 2] characters. *)
Theorem split_label_two_lines (label : string) :
  (String.length label <= 6 -> split_label label = label) /\
  (6 < String.length label ->
   exists a b, split_label label = a ++ newline ++ b /\
               a ++ b = label /\
               String.length a = (String.length label + 1) / 2 /\
               String.length b = String.length label / 2).
Proof.
  unfold split_label. split.
  - intros H. now rewrite (proj2 (Nat.ltb_ge 6 (String.length label))) by lia.
  - intros H. rewrite (proj2 (Nat.ltb_lt 6 (String.length label))) by exact H.
    eexists _, _. split; [reflexivity|]. split; [apply slice_to_from|].
    rewrite length_slice_to, length_slice_from.
    set (ll := String.length label) in *.
    pose proof (Nat.div_mod_eq (ll + 1) 2) as H1.
    pose proof (Nat.mod_upper_bound (ll + 1) 2 ltac:(lia)) as H2.
    pose proof (Nat.div_mod_eq ll 2) as H3.
    pose proof (Nat.mod_upper_bound ll 2 ltac:(lia)) as H4.
    split; lia.
Qed.

End PlotLabels.

Section PlotLabelSamples.
Import Plot.
Local Open Scope string_scope.

Example split_label_sample :
  split_label "CEBPA" = "CEBPA" /\
  split_label "ARID3A1" = "ARID" ++ newline ++ "3A1".
Proof. split; reflexivity. Qed.

Lemma split_label_two_lines_witness :
  String.length "CEBPA" <= 6 /\ split_label "CEBPA" = "CEBPA".
Proof.
  assert (H : String.length "CEBPA" <= 6) by (cbn; lia).
  split; [exact H|].
  exact (proj1 (split_label_two_lines "CEBPA") H).
Defined.

End PlotLabelSamples.

(* ===================================================================== *)
(** * A complete run on one TF and one gene                               *)
(* ===================================================================== *)

Section SinglePairRun.
Import Loop.
Local Open Scope string_scope.






End SinglePairRun.
